(** * Sweeper: the Minesweeper solver of [solver.js] and its page script

    A shallow embedding of [getNeighbors] and [findMoves] ([solver.js]) and
    of [readBoard], [debugPrintBoard] and [clickCell] ([foreground.js]),
    and the proofs of their specification.

    Modelling conventions.
    - JavaScript numbers that hold board coordinates and clue values are
      integers, modelled as [Z].  (Array indices are below 2^32, far inside
      the range where doubles are exact and print in plain decimal.)
    - A board is an array of arrays of tiles: [list (list Tile)].
    - Reading a property of [undefined] throws a [TypeError]; functions that
      can do so return an [outcome].
    - A JavaScript [Set] of strings iterates in insertion order: it is a
      list of keys without repetition, [add] appending at the end. *)

From Stdlib Require Import String Ascii ZArith List Bool Lia.
From Stdlib Require Import Decimal DecimalString DecimalPos DecimalZ.
Import ListNotations.

Local Open Scope Z_scope.

(** ** Outcomes: a value, or a thrown [TypeError] *)

Inductive outcome (A : Type) : Type :=
| Ok (a : A)
| TypeError.

Arguments Ok {A} a.
Arguments TypeError {A}.

Definition bind {A B : Type} (m : outcome A) (k : A -> outcome B) : outcome B :=
  match m with
  | Ok a => k a
  | TypeError => TypeError
  end.

Notation "x <- m ;; k" := (bind m (fun x => k))
  (at level 61, m at next level, right associativity).

(** [Array.prototype.filter] with a callback that may throw. *)
Fixpoint filterM {A : Type} (f : A -> outcome bool) (l : list A)
  : outcome (list A) :=
  match l with
  | [] => Ok []
  | x :: xs =>
      b <- f x ;;
      ys <- filterM f xs ;;
      Ok (if b then x :: ys else ys)
  end.

(** ** The JavaScript values and string operations used by [findMoves] *)

Module JS.

(** What a destructured, [Number]-converted array element can be. *)
Inductive jsval : Type :=
| JNum (z : Z)
| JNaN
| JUndefined.

Definition jsval_eqb (a b : jsval) : bool :=
  match a, b with
  | JNum x, JNum y => Z.eqb x y
  | JNaN, JNaN => true
  | JUndefined, JUndefined => true
  | _, _ => false
  end.

(** Template-literal conversion of an integer: [`${n}`].  Plain decimal,
    as the script prints every integer below 10^21 in magnitude (board
    coordinates are far below). *)
Definition toString (n : Z) : string :=
  NilZero.string_of_int (Z.to_int n).

(** [Number(s)] on the decimal integer literals: an optional sign followed
    by digits; the empty string converts to 0.  Every other string is
    mapped to [NaN] (fractions, exponents, radix prefixes and white space
    are outside the integer model; no key built by [cellKey] has them). *)
Definition digitsValue (s : string) : jsval :=
  match NilZero.uint_of_string s with
  | Some d => JNum (Z.of_uint d)
  | None => JNaN
  end.

Definition Number (s : string) : jsval :=
  match s with
  | EmptyString => JNum 0
  | String a s' =>
      if Ascii.eqb a "-" then
        match digitsValue s' with
        | JNum z => JNum (- z)
        | v => v
        end
      else if Ascii.eqb a "+" then digitsValue s'
      else digitsValue s
  end.

(** [s.split(sep)] for a one-character separator. *)
Fixpoint split (sep : ascii) (s : string) : list string :=
  match s with
  | EmptyString => [EmptyString]
  | String a s' =>
      if Ascii.eqb a sep then EmptyString :: split sep s'
      else match split sep s' with
           | [] => [String a EmptyString]
           | w :: ws => String a w :: ws
           end
  end.

(** [Set] of strings, in insertion order. *)
Definition StrSet : Type := list string.

Definition has (s : StrSet) (k : string) : bool :=
  existsb (String.eqb k) s.

Definition add (s : StrSet) (k : string) : StrSet :=
  if has s k then s else s ++ [k].

End JS.

Import JS.

(** ** Data model *)

(** [state: { kind: "hidden" } | { kind: "number", value: N }], the two
    kinds [readBoard] builds; [N] is an integer. *)
Inductive TileState : Type :=
| hidden
| number (value : Z).

Record Tile : Type := mkTile {
  tile_row : Z;
  tile_col : Z;
  state : TileState
}.

Definition Board : Type := list (list Tile).

(** [{ row, col }] as pushed by [getNeighbors]. *)
Record Cell : Type := mkCell { row : Z; col : Z }.

(** [{ row, col }] as rebuilt from a key at the end of [findMoves]. *)
Record OutCell : Type := mkOutCell { out_row : jsval; out_col : jsval }.

Record Moves : Type := mkMoves {
  safeCells : list OutCell;
  mineCells : list OutCell
}.

Definition isHidden (t : Tile) : bool :=
  match state t with
  | hidden => true
  | number _ => false
  end.

(** ** [getNeighbors] *)

Definition directions : list (Z * Z) :=
  [ (-1, -1); (-1, 0); (-1, 1);
    (0, -1);           (0, 1);
    (1, -1);  (1, 0);  (1, 1) ].

(** The bounds test
    [newRow >= 0 && newRow < board.length &&
     newCol >= 0 && newCol < board[0].length],
    evaluated left to right: [board[0].length] is read only when the first
    three conjuncts hold, and throws when [board[0]] is [undefined]. *)
Definition inBounds (board : Board) (newRow newCol : Z) : outcome bool :=
  if (newRow >=? 0) && (newRow <? Z.of_nat (length board)) && (newCol >=? 0)
  then match nth_error board 0 with
       | Some row0 => Ok (newCol <? Z.of_nat (length row0))
       | None => TypeError
       end
  else Ok false.

Fixpoint getNeighbors_loop (board : Board) (row col : Z)
    (dirs : list (Z * Z)) (neighbors : list Cell) : outcome (list Cell) :=
  match dirs with
  | [] => Ok neighbors
  | (dr, dc) :: rest =>
      let newRow := row + dr in
      let newCol := col + dc in
      ok <- inBounds board newRow newCol ;;
      getNeighbors_loop board row col rest
        (if ok then neighbors ++ [mkCell newRow newCol] else neighbors)
  end.

Definition getNeighbors (board : Board) (row col : Z) : outcome (list Cell) :=
  getNeighbors_loop board row col directions [].

(** ** [findMoves] *)

Definition cellKey (row col : Z) : string :=
  (toString row ++ "_" ++ toString col)%string.

(** [board[row][col]] followed by a property read of the result: indexing
    [undefined], or reading [.state] of [undefined], throws. *)
Definition tileAt (board : Board) (row col : Z) : outcome Tile :=
  if (row <? 0) || (col <? 0) then TypeError
  else match nth_error board (Z.to_nat row) with
       | None => TypeError
       | Some tiles =>
           match nth_error tiles (Z.to_nat col) with
           | None => TypeError
           | Some t => Ok t
           end
       end.

(** [cells.forEach(n => set.add(cellKey(n.row, n.col)))] *)
Definition addCells (s : StrSet) (cells : list Cell) : StrSet :=
  fold_left (fun acc n => add acc (cellKey (row n) (col n))) cells s.

(** The nested loops
    [for (r = 0; r < board.length; r++)
       for (c = 0; c < board[r].length; c++) { tile = board[r][c]; ... }]
    threading the set the body updates. *)
Fixpoint forCols (body : nat -> Tile -> StrSet -> outcome StrSet)
    (c : nat) (tiles : list Tile) (s : StrSet) : outcome StrSet :=
  match tiles with
  | [] => Ok s
  | tile :: rest =>
      s' <- body c tile s ;;
      forCols body (S c) rest s'
  end.

Fixpoint forRows (body : nat -> nat -> Tile -> StrSet -> outcome StrSet)
    (r : nat) (rows : list (list Tile)) (s : StrSet) : outcome StrSet :=
  match rows with
  | [] => Ok s
  | tiles :: rest =>
      s' <- forCols (body r) 0 tiles s ;;
      forRows body (S r) rest s'
  end.

Definition forEachTile (body : nat -> nat -> Tile -> StrSet -> outcome StrSet)
    (board : Board) (s : StrSet) : outcome StrSet :=
  forRows body 0 board s.

(** Body of the first pass (Rule 1). *)
Definition pass1_body (board : Board) (r c : nat) (tile : Tile)
    (mineSet : StrSet) : outcome StrSet :=
  match state tile with
  | hidden => Ok mineSet
  | number value =>
      neighbors <- getNeighbors board (Z.of_nat r) (Z.of_nat c) ;;
      hiddenNeighbors <-
        filterM (fun n =>
                   neighborTile <- tileAt board (row n) (col n) ;;
                   Ok (isHidden neighborTile))
                neighbors ;;
      if value =? Z.of_nat (length hiddenNeighbors)
      then Ok (addCells mineSet hiddenNeighbors)
      else Ok mineSet
  end.

(** Body of the second pass (simplified Rule 2); [mineSet] is only read. *)
Definition pass2_body (board : Board) (mineSet : StrSet) (r c : nat)
    (tile : Tile) (safeSet : StrSet) : outcome StrSet :=
  match state tile with
  | hidden => Ok safeSet
  | number value =>
      neighbors <- getNeighbors board (Z.of_nat r) (Z.of_nat c) ;;
      let identifiedMineCount :=
        length (filter (fun n => has mineSet (cellKey (row n) (col n)))
                       neighbors) in
      if Z.of_nat identifiedMineCount =? value
      then
        hiddenNeighbors <-
          filterM (fun n =>
                     neighborTile <- tileAt board (row n) (col n) ;;
                     Ok (isHidden neighborTile
                         && negb (has mineSet (cellKey (row n) (col n)))))
                  neighbors ;;
        Ok (addCells safeSet hiddenNeighbors)
      else Ok safeSet
  end.

(** [const [row, col] = key.split('_').map(Number); return { row, col }] *)
Definition keyToCell (key : string) : OutCell :=
  let parts := map Number (split "_" key) in
  mkOutCell (nth 0 parts JUndefined) (nth 1 parts JUndefined).

Definition pass1 (board : Board) : outcome StrSet :=
  forEachTile (pass1_body board) board [].

Definition pass2 (board : Board) (mineSet : StrSet) : outcome StrSet :=
  forEachTile (pass2_body board mineSet) board [].

Definition findMoves (board : Board) : outcome Moves :=
  mineSet <- pass1 board ;;
  safeSet <- pass2 board mineSet ;;
  Ok (mkMoves (map keyToCell safeSet) (map keyToCell mineSet)).

(** ** Example boards *)

Definition H (r c : Z) : Tile := mkTile r c hidden.
Definition N (r c v : Z) : Tile := mkTile r c (number v).

(** [board2] of [runSolverOnExampleBoards]: [2 . .] over [1 . .]. *)
Definition board2 : Board :=
  [ [N 0 0 2; H 0 1; H 0 2];
    [N 1 0 1; H 1 1; H 1 2] ].

(** The returned object [{ row: r, col: c }] with integer coordinates. *)
Definition cell (r c : Z) : OutCell := mkOutCell (JNum r) (JNum c).

(** * Definitions used to state and prove the specification *)

(** ** Characters of a key *)

Fixpoint allChars (p : ascii -> bool) (s : string) : bool :=
  match s with
  | EmptyString => true
  | String a s' => p a && allChars p s'
  end.

Definition isDigit (a : ascii) : bool :=
  let n := nat_of_ascii a in (48 <=? n)%nat && (n <=? 57)%nat.

Definition isKeyChar (a : ascii) : bool :=
  isDigit a || Ascii.eqb a "-".

(** ** The bounds of a board and the neighbours inside them *)

(** [board.length] *)
Definition rowCount (board : Board) : Z := Z.of_nat (length board).

(** Width of row 0 ([board[0].length]); 0 for a board without rows. *)
Definition width (board : Board) : Z :=
  match board with
  | [] => 0
  | row0 :: _ => Z.of_nat (length row0)
  end.

Definition inside (board : Board) (n : Cell) : bool :=
  (0 <=? row n) && (row n <? rowCount board)
  && (0 <=? col n) && (col n <? width board).

Definition offsets (r c : Z) : list Cell :=
  map (fun d => mkCell (r + fst d) (c + snd d)) directions.

Definition neighborsOf (board : Board) (r c : Z) : list Cell :=
  filter (inside board) (offsets r c).

(** ** The tiles a pass visits *)

(** A tile with the loop indices [r] and [c] it is visited at. *)
Definition ITile : Type := (nat * nat * Tile)%type.

Fixpoint indexCols (r c : nat) (tiles : list Tile) : list ITile :=
  match tiles with
  | [] => []
  | t :: rest => (r, c, t) :: indexCols r (S c) rest
  end.

Fixpoint indexRows (r : nat) (rows : list (list Tile)) : list ITile :=
  match rows with
  | [] => []
  | tiles :: rest => indexCols r 0 tiles ++ indexRows (S r) rest
  end.

(** All tiles with their loop indices, in visiting order. *)
Definition tilesOf (board : Board) : list ITile := indexRows 0 board.

Fixpoint foldM (f : ITile -> StrSet -> outcome StrSet)
    (l : list ITile) (s : StrSet) : outcome StrSet :=
  match l with
  | [] => Ok s
  | x :: rest => s' <- f x s ;; foldM f rest s'
  end.

Definition onITile (body : nat -> nat -> Tile -> StrSet -> outcome StrSet)
    (x : ITile) : StrSet -> outcome StrSet :=
  body (fst (fst x)) (snd (fst x)) (snd x).

(** The callback returned [true] (it neither threw nor returned [false]). *)
Definition okTrue {A : Type} (f : A -> outcome bool) (x : A) : bool :=
  match f x with
  | Ok b => b
  | TypeError => false
  end.

(** ** The two deduction rules as pure functions of the board *)

Definition keyOf (n : Cell) : string := cellKey (row n) (col n).

(** The tile at [n] exists and is hidden. *)
Definition hiddenAt (board : Board) (n : Cell) : bool :=
  match tileAt board (row n) (col n) with
  | Ok t => isHidden t
  | TypeError => false
  end.

(** Cells the first pass adds when it visits tile [x]. *)
Definition rule1 (board : Board) (x : ITile) : list Cell :=
  let '(r, c, tile) := x in
  match state tile with
  | hidden => []
  | number value =>
      let hs := filter (hiddenAt board)
                       (neighborsOf board (Z.of_nat r) (Z.of_nat c)) in
      if value =? Z.of_nat (length hs) then hs else []
  end.

(** Cells the second pass adds when it visits tile [x]. *)
Definition rule2 (board : Board) (mineSet : StrSet) (x : ITile) : list Cell :=
  let '(r, c, tile) := x in
  match state tile with
  | hidden => []
  | number value =>
      let ns := neighborsOf board (Z.of_nat r) (Z.of_nat c) in
      if Z.of_nat (length (filter (fun n => has mineSet (keyOf n)) ns))
         =? value
      then filter (fun n => hiddenAt board n && negb (has mineSet (keyOf n)))
                  ns
      else []
  end.

Definition rectangularb (board : Board) : bool :=
  forallb (fun tiles => Z.of_nat (length tiles) =? width board) board.

(** Every row is as long as row 0. *)
Definition rectangular (board : Board) : Prop := rectangularb board = true.

(** What the passes compute, when they return. *)
Definition mineKeys (board : Board) : StrSet :=
  addCells [] (flat_map (rule1 board) (tilesOf board)).

Definition safeKeys (board : Board) (mineSet : StrSet) : StrSet :=
  addCells [] (flat_map (rule2 board mineSet) (tilesOf board)).

Definition movesOf (board : Board) : Moves :=
  mkMoves (map keyToCell (safeKeys board (mineKeys board)))
          (map keyToCell (mineKeys board)).

(** Every key of the set was built by [cellKey]. *)
Definition cellKeys (s : StrSet) : Prop :=
  forall k, In k s -> exists n, k = keyOf n.

(** ** Snapshots and decoded positions *)

(** Two boards show the same grid of tile states. *)
Definition sameStates (b1 b2 : Board) : Prop :=
  map (map state) b1 = map (map state) b2.

Definition outCell_eqb (a b : OutCell) : bool :=
  jsval_eqb (out_row a) (out_row b) && jsval_eqb (out_col a) (out_col b).

(** Boolean membership of a position in a returned array. *)
Definition memCell (oc : OutCell) (cells : list OutCell) : bool :=
  existsb (outCell_eqb oc) cells.

(** A row [1 . 1 .]: the first clue marks (0,1), the second then clears (0,3). *)
Definition board3 : Board :=
  [ [N 0 0 1; H 0 1; N 0 2 1; H 0 3] ].

(** ** Mine layouts and boards whose reads all succeed *)

(** Where the mines really are: [mine r c] for the position [(r, c)]. *)
Definition Layout : Type := Z -> Z -> bool.

Definition mineAt (mine : Layout) (n : Cell) : bool := mine (row n) (col n).

(** The clue of tile [x] is true of [mine]: a numbered tile is not itself a
    mine and shows the number of mines among its neighbours. *)
Definition clueHolds (board : Board) (mine : Layout) (x : ITile) : bool :=
  let '(r, c, tile) := x in
  match state tile with
  | hidden => true
  | number value =>
      negb (mine (Z.of_nat r) (Z.of_nat c))
      && (value =? Z.of_nat (length (filter (mineAt mine)
                     (neighborsOf board (Z.of_nat r) (Z.of_nat c)))))
  end.

(** Every clue on the board is true of [mine]. *)
Definition consistent (board : Board) (mine : Layout) : Prop :=
  forallb (clueHolds board mine) (tilesOf board) = true.

(** [board[n.row][n.col]] is a tile (not [undefined]). *)
Definition hasTile (board : Board) (n : Cell) : bool :=
  match tileAt board (row n) (col n) with
  | Ok _ => true
  | TypeError => false
  end.

(** Every neighbour of tile [x], if [x] is numbered, has a tile. *)
Definition neighborsPresent (board : Board) (x : ITile) : bool :=
  let '(r, c, tile) := x in
  match state tile with
  | hidden => true
  | number _ =>
      forallb (hasTile board) (neighborsOf board (Z.of_nat r) (Z.of_nat c))
  end.

Definition complete (board : Board) : bool :=
  forallb (neighborsPresent board) (tilesOf board).

(** A ragged board: row 1 is shorter than row 0. *)
Definition ragged : Board :=
  [ [N 0 0 1; H 0 1];
    [H 1 0] ].

(** [board3] with the tile coordinates overwritten by zeros. *)
Definition board3_unlabelled : Board :=
  [ [N 0 0 1; H 0 0; N 0 0 1; H 0 0] ].

(** A layout for [board3]: the only mine is at (0,1). *)
Definition mine3 : Layout := fun r c => (r =? 0) && (c =? 1).

(** A revealed 0 next to a hidden tile, and the layout without mines. *)
Definition board0 : Board :=
  [ [N 0 0 0; H 0 1] ].

Definition noMines : Layout := fun _ _ => false.

(** * [foreground.js]: the page, [readBoard] and [clickCell]

    Strings are sequences of code units below 256.  An element of the page
    is modelled by the two properties the script reads, its [id] and its
    [classList]; the document is the list of its elements in document
    order. *)

Record Element : Type := mkElement {
  id : string;
  classList : list string
}.

Definition Document : Type := list Element.

(** [document.querySelectorAll('.square')] *)
Definition querySelectorAll_square (document : Document) : list Element :=
  filter (fun e => existsb (String.eqb "square") (classList e)) document.

(** [document.getElementById(id)]: the first element with that id. *)
Definition getElementById (document : Document) (i : string)
  : option Element :=
  find (fun e => String.eqb (id e) i) document.

(** ** [parseInt(s, 10)] *)

(** White space and line terminators among the code units below 256:
    TAB, LF, VT, FF, CR, SP and NBSP. *)
Definition isWhiteSpace (a : ascii) : bool :=
  let n := nat_of_ascii a in
  ((9 <=? n)%nat && (n <=? 13)%nat) || (n =? 32)%nat || (n =? 160)%nat.

Fixpoint trimStart (s : string) : string :=
  match s with
  | EmptyString => EmptyString
  | String a s' => if isWhiteSpace a then trimStart s' else s
  end.

(** The longest prefix of decimal digits. *)
Fixpoint digitPrefix (s : string) : string :=
  match s with
  | EmptyString => EmptyString
  | String a s' => if isDigit a then String a (digitPrefix s') else EmptyString
  end.

(** [ToString] of a possibly [undefined] string. *)
Definition toStr (x : option string) : string :=
  match x with
  | Some s => s
  | None => "undefined"
  end.

(** [parseInt(x, 10)]: skip leading white space, read an optional sign and
    the longest run of digits; [NaN] when there is no digit.  The value is
    the exact integer, as in the script for digit runs below 2^53. *)
Definition parseInt (x : option string) : jsval :=
  match trimStart (toStr x) with
  | EmptyString => JNaN
  | String a s' as s =>
      if Ascii.eqb a "-" then
        match digitsValue (digitPrefix s') with
        | JNum z => JNum (- z)
        | v => v
        end
      else if Ascii.eqb a "+" then digitsValue (digitPrefix s')
      else digitsValue (digitPrefix s)
  end.

(** [s.replace(pat, '')]: the first occurrence of [pat] removed. *)
Fixpoint removeFirst (pat s : string) : string :=
  if prefix pat s
  then substring (String.length pat) (String.length s - String.length pat) s
  else match s with
       | EmptyString => EmptyString
       | String a s' => String a (removeFirst pat s')
       end.

(** ** [Map] with number keys, in insertion order *)

Definition JSMap (V : Type) : Type := list (jsval * V).

Fixpoint mapGet {V : Type} (m : JSMap V) (k : jsval) : option V :=
  match m with
  | [] => None
  | (k', v) :: rest => if jsval_eqb k k' then Some v else mapGet rest k
  end.

Definition mapHas {V : Type} (m : JSMap V) (k : jsval) : bool :=
  match mapGet m k with
  | Some _ => true
  | None => false
  end.

(** [m.set(k, v)]: an existing key keeps its place. *)
Fixpoint mapSet {V : Type} (m : JSMap V) (k : jsval) (v : V) : JSMap V :=
  match m with
  | [] => [(k, v)]
  | (k', v') :: rest =>
      if jsval_eqb k k' then (k', v) :: rest else (k', v') :: mapSet rest k v
  end.

(** ** [readBoard] *)

(** The state [readBoard] builds: the clue is what [parseInt] returned. *)
Inductive PageState : Type :=
| page_hidden
| page_number (value : jsval).

Record PageTile : Type := mkPageTile {
  page_row : jsval;
  page_col : jsval;
  page_state : PageState
}.

(** [const [rowStr, colStr] = id.split('_')] and the two [parseInt]s. *)
Definition parseId (i : string) : jsval * jsval :=
  let parts := split "_" i in
  (parseInt (nth_error parts 0), parseInt (nth_error parts 1)).

(** The state read from the class names of a square. *)
Definition squareState (square : Element) : PageState :=
  if existsb (String.eqb "blank") (classList square) then page_hidden
  else match find (prefix "open") (classList square) with
       | Some openClass =>
           page_number (parseInt (Some (removeFirst "open" openClass)))
       | None => page_hidden
       end.

(** One step of [squares.forEach]: store the tile of [square] in the map of
    maps.  The inner map is updated in place in the script; here the entry
    of the outer map is rewritten, which keeps its place. *)
Definition storeSquare (boardMap : JSMap (JSMap PageTile)) (square : Element)
  : JSMap (JSMap PageTile) :=
  let '(row, col) := parseId (id square) in
  let state := squareState square in
  let boardMap1 :=
    if mapHas boardMap row then boardMap else mapSet boardMap row [] in
  match mapGet boardMap1 row with
  | Some colMap =>
      mapSet boardMap1 row (mapSet colMap col (mkPageTile row col state))
  | None => boardMap1
  end.

(** [if (x > max) max = x], false for [NaN]. *)
Definition greater (x : jsval) (max : Z) : Z :=
  match x with
  | JNum z => if z >? max then z else max
  | _ => max
  end.

(** The two nested [forEach] that find [maxRow] and [maxCol]. *)
Definition maxima (boardMap : JSMap (JSMap PageTile)) : Z * Z :=
  fold_left
    (fun acc entry =>
       (greater (fst entry) (fst acc),
        fold_left (fun maxCol e => greater (fst e) maxCol)
                  (snd entry) (snd acc)))
    boardMap (-1, -1).

(** The values of [i] in [for (i = 0; i <= max; i++)]. *)
Definition upto (max : Z) : list Z :=
  map Z.of_nat (seq 0 (Z.to_nat (max + 1))).

Definition filler (r c : Z) : PageTile :=
  mkPageTile (JNum r) (JNum c) page_hidden.

(** [boardMap.has(r) && boardMap.get(r).has(c) ? boardMap.get(r).get(c)
     : { row: r, col: c, state: { kind: "hidden" } }] *)
Definition tileOrFiller (boardMap : JSMap (JSMap PageTile)) (r c : Z)
  : PageTile :=
  match mapGet boardMap (JNum r) with
  | Some colMap =>
      match mapGet colMap (JNum c) with
      | Some tile => tile
      | None => filler r c
      end
  | None => filler r c
  end.

Definition PageBoard : Type := list (list PageTile).

Definition readBoard (document : Document) : PageBoard :=
  let squares := querySelectorAll_square document in
  let boardMap := fold_left storeSquare squares [] in
  let '(maxRow, maxCol) := maxima boardMap in
  map (fun r => map (fun c => tileOrFiller boardMap r c) (upto maxCol))
      (upto maxRow).

(** ** [clickCell] *)

(** The events dispatched, each with [bubbles: true, button: 0]. *)
Inductive MouseEvent : Type :=
| mousedown (target : Element)
| mouseup (target : Element).

Definition clickCell (document : Document) (row col : Z) : list MouseEvent :=
  match getElementById document (cellKey row col) with
  | None => []
  | Some el => [mousedown el; mouseup el]
  end.

(** ** Page boards as solver boards *)

(** A page tile whose coordinates and clue are integers, as a [Tile]. *)
Definition toTile (t : PageTile) : option Tile :=
  match page_row t, page_col t, page_state t with
  | JNum r, JNum c, page_hidden => Some (mkTile r c hidden)
  | JNum r, JNum c, page_number (JNum v) => Some (mkTile r c (number v))
  | _, _, _ => None
  end.

Fixpoint allSome {A : Type} (l : list (option A)) : option (list A) :=
  match l with
  | [] => Some []
  | Some x :: rest => option_map (cons x) (allSome rest)
  | None :: _ => None
  end.

(** The page board as a [Board], when every clue is an integer. *)
Definition toBoard (pb : PageBoard) : option Board :=
  allSome (map (fun tiles => allSome (map toTile tiles)) pb).

(** A small page: [1 . 1 .] with one element that is no square. *)
Definition page3 : Document :=
  [ mkElement "face" ["facesmile"%string];
    mkElement "0_0" ["square"; "open1"]%string;
    mkElement "0_1" ["square"; "blank"]%string;
    mkElement "0_2" ["square"; "open1"]%string;
    mkElement "0_3" ["square"; "blank"]%string ].

(** ** Definitions used to state the properties of [readBoard] *)

(** [boardMap.get(r).get(c)], when both keys are present. *)
Definition lookup2 (boardMap : JSMap (JSMap PageTile)) (r c : jsval)
  : option PageTile :=
  match mapGet boardMap r with
  | Some colMap => mapGet colMap c
  | None => None
  end.

(** The id of [square] parses to the position [(r, c)]. *)
Definition atPosition (r c : jsval) (square : Element) : bool :=
  jsval_eqb r (fst (parseId (id square)))
  && jsval_eqb c (snd (parseId (id square))).

(** The tile [readBoard] stores for [square]. *)
Definition pageTileOf (square : Element) : PageTile :=
  mkPageTile (fst (parseId (id square))) (snd (parseId (id square)))
             (squareState square).

(** The last square of the page, in document order, at position [(r, c)]. *)
Definition lastAt (document : Document) (r c : jsval) : option Element :=
  find (atPosition r c) (List.rev (querySelectorAll_square document)).

Definition step_maxima (acc : Z * Z) (entry : jsval * JSMap PageTile)
  : Z * Z :=
  (greater (fst entry) (fst acc),
   fold_left (fun maxCol e => greater (fst e) maxCol) (snd entry) (snd acc)).

(** The map [readBoard] has built when its [forEach] is over. *)
Definition boardMapOf (document : Document) : JSMap (JSMap PageTile) :=
  fold_left storeSquare (querySelectorAll_square document) [].

(** Two squares at (1,2), the later one blank; a square without
    position; a square in row -1. *)
Definition page_odd : Document :=
  [ mkElement "1_2" ["square"; "open3"]%string;
    mkElement "a_b" ["square"%string];
    mkElement "-1_5" ["square"%string];
    mkElement "1_2" ["square"; "blank"; "open2"]%string ].

(** Every key of the map of maps is the row of some square of [squares],
    and every key of its inner maps the column of some square. *)
Definition keysFrom (squares : list Element)
    (boardMap : JSMap (JSMap PageTile)) : Prop :=
  forall k colMap, In (k, colMap) boardMap ->
    (exists square, In square squares /\ fst (parseId (id square)) = k)
    /\ forall k2 t, In (k2, t) colMap ->
         exists square, In square squares /\ snd (parseId (id square)) = k2.

(** The class name the page gives a revealed square showing [n]. *)
Definition openClass (n : Z) : string := ("open" ++ toString n)%string.

(** An integer that a JavaScript number holds exactly and that prints in
    plain decimal: between -2^53 and 2^53. *)
Definition safeInteger (n : Z) : Prop :=
  - 9007199254740992 < n < 9007199254740992.

(** ** [debugPrintBoard] *)

Definition newline : string := String "010"%char EmptyString.

(** What one tile adds to its row of the grid. *)
Definition tileText (tile : Tile) : string :=
  match state tile with
  | hidden => "."
  | number value => toString value
  end.

(** The inner loop: [row += ...] for every tile of the row. *)
Definition rowText (tiles : list Tile) : string :=
  fold_left (fun row tile => (row ++ tileText tile)%string) tiles EmptyString.

(** The text [debugPrintBoard] passes to [console.log]. *)
Definition debugPrintBoard (board : Board) : string :=
  match board with
  | [] => "Empty board"
  | _ =>
      let grid :=
        fold_left (fun grid tiles => (grid ++ (rowText tiles ++ newline))%string)
                  board EmptyString in
      ("Board state:" ++ newline ++ grid)%string
  end.

(** Every clue of the row is a single decimal digit. *)
Definition singleDigits (tiles : list Tile) : bool :=
  forallb (fun t => match state t with
                    | hidden => true
                    | number v => (0 <=? v) && (v <=? 9)
                    end) tiles.

(** The character shown for a tile with a single-digit clue. *)
Definition tileChar (tile : Tile) : ascii :=
  match state tile with
  | hidden => "."%char
  | number v => ascii_of_nat (48 + Z.to_nat v)
  end.

(** * [findMoves] with its two [Set] objects in the heap

    The embedding above threads the two sets of a call as values.  Here a
    call runs in a heap that holds every [Set] object allocated so far,
    those of earlier calls included: [new Set()] allocates a fresh empty
    object at the end of the heap, and [add] and [has] work on the object
    at an address. *)

Definition Store : Type := list StrSet.

(** [new Set()] *)
Definition newSet (st : Store) : nat * Store :=
  (length st, st ++ [[]]).

(** The keys of the object at address [a], in insertion order. *)
Definition setOf (st : Store) (a : nat) : StrSet := nth a st [].

Fixpoint update (st : Store) (a : nat) (s : StrSet) : Store :=
  match st, a with
  | [], _ => []
  | _ :: rest, O => s :: rest
  | x :: rest, S a' => x :: update rest a' s
  end.

(** [set.add(k)] and [set.has(k)] for the object at address [a]. *)
Definition setAdd (st : Store) (a : nat) (k : string) : Store :=
  update st a (add (setOf st a) k).

Definition setHas (st : Store) (a : nat) (k : string) : bool :=
  has (setOf st a) k.

(** [cells.forEach(n => set.add(cellKey(n.row, n.col)))] *)
Definition addCellsIn (st : Store) (a : nat) (cells : list Cell) : Store :=
  fold_left (fun acc n => setAdd acc a (cellKey (row n) (col n))) cells st.

Fixpoint forColsIn (body : nat -> Tile -> Store -> outcome Store)
    (c : nat) (tiles : list Tile) (st : Store) : outcome Store :=
  match tiles with
  | [] => Ok st
  | tile :: rest =>
      st' <- body c tile st ;;
      forColsIn body (S c) rest st'
  end.

Fixpoint forRowsIn (body : nat -> nat -> Tile -> Store -> outcome Store)
    (r : nat) (rows : list (list Tile)) (st : Store) : outcome Store :=
  match rows with
  | [] => Ok st
  | tiles :: rest =>
      st' <- forColsIn (body r) 0 tiles st ;;
      forRowsIn body (S r) rest st'
  end.

Definition pass1_bodyIn (board : Board) (mineCells : nat) (r c : nat)
    (tile : Tile) (st : Store) : outcome Store :=
  match state tile with
  | hidden => Ok st
  | number value =>
      neighbors <- getNeighbors board (Z.of_nat r) (Z.of_nat c) ;;
      hiddenNeighbors <-
        filterM (fun n =>
                   neighborTile <- tileAt board (row n) (col n) ;;
                   Ok (isHidden neighborTile))
                neighbors ;;
      if value =? Z.of_nat (length hiddenNeighbors)
      then Ok (addCellsIn st mineCells hiddenNeighbors)
      else Ok st
  end.

Definition pass2_bodyIn (board : Board) (mineCells safeCells : nat)
    (r c : nat) (tile : Tile) (st : Store) : outcome Store :=
  match state tile with
  | hidden => Ok st
  | number value =>
      neighbors <- getNeighbors board (Z.of_nat r) (Z.of_nat c) ;;
      let identifiedMineCount :=
        length (filter (fun n => setHas st mineCells
                                        (cellKey (row n) (col n)))
                       neighbors) in
      if Z.of_nat identifiedMineCount =? value
      then
        hiddenNeighbors <-
          filterM (fun n =>
                     neighborTile <- tileAt board (row n) (col n) ;;
                     Ok (isHidden neighborTile
                         && negb (setHas st mineCells
                                         (cellKey (row n) (col n)))))
                  neighbors ;;
        Ok (addCellsIn st safeCells hiddenNeighbors)
      else Ok st
  end.

(** A call of [findMoves] in the heap [st0]: the result and the heap it
    leaves behind. *)
Definition findMovesIn (board : Board) (st0 : Store)
  : outcome (Moves * Store) :=
  let '(safeSet, st1) := newSet st0 in
  let '(mineSet, st2) := newSet st1 in
  st3 <- forRowsIn (pass1_bodyIn board mineSet) 0 board st2 ;;
  st4 <- forRowsIn (pass2_bodyIn board mineSet safeSet) 0 board st3 ;;
  Ok (mkMoves (map keyToCell (setOf st4 safeSet))
              (map keyToCell (setOf st4 mineSet)),
      st4).

(** What a call returns, the heap put aside. *)
Definition returned (o : outcome (Moves * Store)) : outcome Moves :=
  match o with
  | Ok (res, _) => Ok res
  | TypeError => TypeError
  end.

(** The heap of a call under way: the objects that were there before, then
    the call's [safeCells] and [mineCells]. *)
Definition during (st0 : Store) (safeSet mineSet : StrSet) : Store :=
  st0 ++ [safeSet; mineSet].

(** A heap that earlier calls have filled. *)
Definition usedStore : Store :=
  [ ["0_3"]; ["0_1"]; ["7_7"; "8_8"] ]%string.

(** * Proofs *)

(** ** Strings: keys decode to the coordinates they were built from *)

Section Keys.

Lemma allChars_app p s1 s2 :
  allChars p (s1 ++ s2)%string = allChars p s1 && allChars p s2.
Proof.
  induction s1 as [|a s1 IH]; simpl; [reflexivity|].
  now rewrite IH, andb_assoc.
Qed.

Lemma allChars_weaken (p q : ascii -> bool) s :
  (forall a, p a = true -> q a = true) ->
  allChars p s = true -> allChars q s = true.
Proof.
  intros Hpq. induction s as [|a s IH]; simpl; [reflexivity|].
  rewrite !andb_true_iff. intros [Ha Hs]. split; auto.
Qed.

Lemma digits_of_uint d : allChars isDigit (NilEmpty.string_of_uint d) = true.
Proof. induction d; simpl; auto. Qed.

Lemma digits_of_uint_zero d : allChars isDigit (NilZero.string_of_uint d) = true.
Proof. destruct d; try apply (digits_of_uint (_ _)); reflexivity. Qed.

Lemma toString_keyChars n : allChars isKeyChar (toString n) = true.
Proof.
  assert (W : forall d, allChars isKeyChar (NilZero.string_of_uint d) = true).
  { intros d. apply allChars_weaken with (p := isDigit).
    - intros a Ha. unfold isKeyChar. now rewrite Ha.
    - apply digits_of_uint_zero. }
  unfold toString.
  destruct n as [|p|p]; cbn [Z.to_int NilZero.string_of_int allChars];
    rewrite ?W; reflexivity.
Qed.

Lemma split_no_sep sep s :
  allChars (fun a => negb (Ascii.eqb a sep)) s = true ->
  split sep s = [s].
Proof.
  induction s as [|a s IH]; simpl; [reflexivity|].
  rewrite andb_true_iff, negb_true_iff. intros [Ha Hs].
  now rewrite Ha, (IH Hs).
Qed.

Lemma split_app sep s1 s2 :
  allChars (fun a => negb (Ascii.eqb a sep)) s1 = true ->
  split sep (s1 ++ String sep s2) = s1 :: split sep s2.
Proof.
  induction s1 as [|a s1 IH]; simpl.
  - intros _. now rewrite Ascii.eqb_refl.
  - rewrite andb_true_iff, negb_true_iff. intros [Ha Hs].
    now rewrite Ha, (IH Hs).
Qed.

Lemma keyChar_not_underscore a :
  isKeyChar a = true -> negb (Ascii.eqb a "_") = true.
Proof.
  destruct a as [[|] [|] [|] [|] [|] [|] [|] [|]]; vm_compute; congruence.
Qed.

Lemma split_cellKey r c :
  split "_" (cellKey r c) = [toString r; toString c].
Proof.
  unfold cellKey. simpl append.
  rewrite split_app, split_no_sep; trivial;
    (eapply allChars_weaken; [apply keyChar_not_underscore
                             |apply toString_keyChars]).
Qed.

Lemma digitsValue_pos p :
  digitsValue (NilZero.string_of_uint (Pos.to_uint p)) = JNum (Z.pos p).
Proof.
  unfold digitsValue.
  rewrite NilZero.usu by apply Unsigned.to_uint_nonnil.
  unfold Z.of_uint. now rewrite Unsigned.of_to.
Qed.

Lemma digit_head_of_pos p :
  exists a s, NilZero.string_of_uint (Pos.to_uint p) = String a s
              /\ isDigit a = true.
Proof.
  pose proof (digits_of_uint_zero (Pos.to_uint p)) as D.
  pose proof (Unsigned.to_uint_nonnil p) as NN.
  destruct (Pos.to_uint p) eqn:E; try congruence;
    simpl in *; eexists _, _; split; try reflexivity; reflexivity.
Qed.

Lemma digit_not_sign a :
  isDigit a = true -> Ascii.eqb a "-" = false /\ Ascii.eqb a "+" = false.
Proof.
  destruct a as [[|] [|] [|] [|] [|] [|] [|] [|]]; vm_compute; intuition congruence.
Qed.

(** [Number(`${n}`)] gives back [n]. *)
Lemma Number_toString n : Number (toString n) = JNum n.
Proof.
  unfold toString. destruct n as [|p|p]; simpl Z.to_int; cbn [NilZero.string_of_int].
  - reflexivity.
  - destruct (digit_head_of_pos p) as (a & s & E & Ha).
    pose proof (digitsValue_pos p) as V. rewrite E in *.
    destruct (digit_not_sign a Ha) as [M P].
    unfold Number. now rewrite M, P.
  - unfold Number. rewrite Ascii.eqb_refl. now rewrite digitsValue_pos.
Qed.

Lemma keyToCell_cellKey r c : keyToCell (cellKey r c) = cell r c.
Proof.
  unfold keyToCell. rewrite split_cellKey. simpl.
  now rewrite !Number_toString.
Qed.

Lemma cellKey_inj r c r' c' : cellKey r c = cellKey r' c' -> r = r' /\ c = c'.
Proof.
  intros E. apply (f_equal keyToCell) in E.
  rewrite !keyToCell_cellKey in E. unfold cell in E. now inversion E.
Qed.

End Keys.

(** ** Sets of keys *)

Section Sets.

Lemma has_In s k : has s k = true <-> In k s.
Proof.
  unfold has. rewrite existsb_exists. split.
  - intros (x & Hx & E). apply String.eqb_eq in E. now subst.
  - intros Hk. exists k. split; [assumption|apply String.eqb_refl].
Qed.

Lemma has_false s k : has s k = false <-> ~ In k s.
Proof.
  rewrite <- has_In. destruct (has s k); intuition congruence.
Qed.

Lemma In_add s k x : In x (add s k) <-> In x s \/ x = k.
Proof.
  unfold add. destruct (has s k) eqn:E.
  - apply has_In in E. intuition (subst; assumption).
  - rewrite in_app_iff. simpl. intuition.
Qed.

Lemma NoDup_add s k : NoDup s -> NoDup (add s k).
Proof.
  intros ND. unfold add. destruct (has s k) eqn:E; [assumption|].
  apply has_false in E.
  apply NoDup_rev in ND. rewrite <- (rev_involutive (s ++ [k])).
  apply NoDup_rev. rewrite rev_app_distr. simpl.
  constructor; [now rewrite <- in_rev|assumption].
Qed.

Lemma In_addCells cells : forall s x,
  In x (addCells s cells) <->
  In x s \/ exists n, In n cells /\ x = cellKey (row n) (col n).
Proof.
  unfold addCells.
  induction cells as [|n cells IH]; intros s x; simpl.
  - split; [now left|]. intros [Hx|(n & [] & _)]. exact Hx.
  - rewrite IH, In_add. split.
    + intros [[Hx|Hx]|(m & Hm & Hx)].
      * now left.
      * right. exists n. auto.
      * right. exists m. auto.
    + intros [Hx|(m & [Hm|Hm] & Hx)].
      * now left; left.
      * subst m. now left; right.
      * right. exists m. auto.
Qed.

Lemma NoDup_addCells cells : forall s, NoDup s -> NoDup (addCells s cells).
Proof.
  unfold addCells.
  induction cells as [|n cells IH]; intros s ND; simpl; [assumption|].
  apply IH. now apply NoDup_add.
Qed.

Lemma addCells_app s cs1 cs2 :
  addCells s (cs1 ++ cs2) = addCells (addCells s cs1) cs2.
Proof. unfold addCells. apply fold_left_app. Qed.

End Sets.

(** ** [getNeighbors] never throws and filters the eight offsets in order *)

Section Neighbors.

Lemma inBounds_inside board r c :
  inBounds board r c = Ok (inside board (mkCell r c)).
Proof.
  unfold inBounds, inside, rowCount, width. simpl.
  rewrite !Z.geb_leb.
  destruct board as [|row0 rest].
  - simpl length. simpl Z.of_nat.
    destruct (0 <=? r) eqn:E1, (r <? 0) eqn:E2; simpl; try reflexivity.
    apply Z.leb_le in E1. apply Z.ltb_lt in E2. lia.
  - cbn [nth_error].
    destruct ((0 <=? r) && (r <? Z.of_nat (length (row0 :: rest)))
              && (0 <=? c)) eqn:E; simpl; [reflexivity|].
    reflexivity.
Qed.

Lemma getNeighbors_loop_spec board r c dirs : forall acc,
  getNeighbors_loop board r c dirs acc =
  Ok (acc ++ filter (inside board)
                    (map (fun d => mkCell (r + fst d) (c + snd d)) dirs)).
Proof.
  induction dirs as [|[dr dc] dirs IH]; intros acc; simpl.
  - now rewrite app_nil_r.
  - rewrite inBounds_inside. simpl. rewrite IH.
    destruct (inside board (mkCell (r + dr) (c + dc))).
    + now rewrite <- app_assoc.
    + reflexivity.
Qed.

Lemma getNeighbors_spec board r c :
  getNeighbors board r c = Ok (neighborsOf board r c).
Proof. unfold getNeighbors. now rewrite getNeighbors_loop_spec. Qed.

Lemma inside_bounds board n :
  inside board n = true <->
  0 <= row n < rowCount board /\ 0 <= col n < width board.
Proof.
  unfold inside. rewrite !andb_true_iff, !Z.leb_le, !Z.ltb_lt. lia.
Qed.

Lemma In_neighborsOf board r c n :
  In n (neighborsOf board r c) <->
  In n (offsets r c) /\ inside board n = true.
Proof. unfold neighborsOf. apply filter_In. Qed.

Lemma In_offsets r c n :
  In n (offsets r c) ->
  (r - 1 <= row n <= r + 1) /\ (c - 1 <= col n <= c + 1)
  /\ n <> mkCell r c.
Proof.
  unfold offsets, directions. simpl.
  intros H; repeat (destruct H as [H|H]); try contradiction; subst n; simpl;
    (split; [lia|split; [lia|]]); intros E; inversion E; lia.
Qed.

End Neighbors.

(** ** The loops over the board as folds over its indexed tiles *)

Section Loops.

Lemma foldM_app f l1 l2 s :
  foldM f (l1 ++ l2) s = (s' <- foldM f l1 s ;; foldM f l2 s').
Proof.
  revert s. induction l1 as [|x l1 IH]; intros s; simpl; [reflexivity|].
  destruct (f x s); simpl; auto.
Qed.

Lemma forCols_foldM body r tiles : forall c s,
  forCols (body r) c tiles s = foldM (onITile body) (indexCols r c tiles) s.
Proof.
  induction tiles as [|t tiles IH]; intros c s; simpl; [reflexivity|].
  unfold onITile at 1. simpl. destruct (body r c t s); simpl; auto.
Qed.

Lemma forRows_foldM body rows : forall r s,
  forRows body r rows s = foldM (onITile body) (indexRows r rows) s.
Proof.
  induction rows as [|tiles rows IH]; intros r s; simpl; [reflexivity|].
  rewrite foldM_app, forCols_foldM.
  destruct (foldM (onITile body) (indexCols r 0 tiles) s); simpl; auto.
Qed.

Lemma forEachTile_foldM body board s :
  forEachTile body board s = foldM (onITile body) (tilesOf board) s.
Proof. apply forRows_foldM. Qed.

Lemma In_indexCols r tiles : forall c0 x,
  In x (indexCols r c0 tiles) <->
  exists k t, x = (r, (c0 + k)%nat, t) /\ nth_error tiles k = Some t.
Proof.
  induction tiles as [|t tiles IH]; intros c0 x; simpl.
  - split; [intros []|]. intros (k & t & _ & E). now destruct k.
  - rewrite IH. split.
    + intros [E|(k & t' & E & Hk)].
      * exists 0%nat, t. rewrite Nat.add_0_r. auto.
      * exists (S k), t'. simpl. rewrite Nat.add_succ_r. auto.
    + intros (k & t' & E & Hk). destruct k as [|k]; simpl in Hk.
      * left. inversion Hk. subst. now rewrite Nat.add_0_r.
      * right. exists k, t'. rewrite Nat.add_succ_r in E. auto.
Qed.

Lemma In_indexRows rows : forall r0 x,
  In x (indexRows r0 rows) <->
  exists k c t tiles,
    x = ((r0 + k)%nat, c, t)
    /\ nth_error rows k = Some tiles /\ nth_error tiles c = Some t.
Proof.
  induction rows as [|tiles rows IH]; intros r0 x; simpl.
  - split; [intros []|]. intros (k & c & t & ts & _ & E & _). now destruct k.
  - rewrite in_app_iff, In_indexCols, IH. split.
    + intros [(c & t & E & Hc)|(k & c & t & ts & E & Hk & Hc)].
      * exists 0%nat, c, t, tiles. rewrite Nat.add_0_r. auto.
      * exists (S k), c, t, ts. simpl. rewrite Nat.add_succ_r. auto.
    + intros (k & c & t & ts & E & Hk & Hc). destruct k as [|k]; simpl in Hk.
      * left. inversion Hk. subst ts. exists c, t.
        rewrite Nat.add_0_r in E. auto.
      * right. exists k, c, t, ts. rewrite Nat.add_succ_r in E. auto.
Qed.

Lemma In_tilesOf board r c t :
  In (r, c, t) (tilesOf board) <->
  exists tiles, nth_error board r = Some tiles /\ nth_error tiles c = Some t.
Proof.
  unfold tilesOf. rewrite In_indexRows. split.
  - intros (k & c' & t' & ts & E & Hk & Hc). inversion E. subst. eauto.
  - intros (ts & Hk & Hc). exists r, c, t, ts. auto.
Qed.

Lemma tileAt_Ok board r c t :
  tileAt board r c = Ok t <->
  0 <= r /\ 0 <= c /\ In (Z.to_nat r, Z.to_nat c, t) (tilesOf board).
Proof.
  unfold tileAt. rewrite In_tilesOf.
  destruct (r <? 0) eqn:Er; [apply Z.ltb_lt in Er|apply Z.ltb_ge in Er];
    simpl.
  { split; [discriminate|lia]. }
  destruct (c <? 0) eqn:Ec; [apply Z.ltb_lt in Ec|apply Z.ltb_ge in Ec].
  { split; [discriminate|lia]. }
  destruct (nth_error board (Z.to_nat r)) as [tiles|].
  - destruct (nth_error tiles (Z.to_nat c)) as [t'|] eqn:E.
    + split.
      * intros [= ->]. eauto.
      * intros (_ & _ & ts & [= <-] & Hc). congruence.
    + split; [discriminate|].
      intros (_ & _ & ts & [= <-] & Hc). congruence.
  - split; [discriminate|]. intros (_ & _ & ts & Hr & _). discriminate.
Qed.

Lemma tileAt_of_nat board r c t :
  tileAt board (Z.of_nat r) (Z.of_nat c) = Ok t <->
  In (r, c, t) (tilesOf board).
Proof.
  rewrite tileAt_Ok, !Nat2Z.id. intuition lia.
Qed.

(** A fold whose steps only add cells adds the cells of all steps. *)
Lemma foldM_Ok f (g : ITile -> list Cell) l :
  (forall x s s', In x l -> f x s = Ok s' -> s' = addCells s (g x)) ->
  forall s s', foldM f l s = Ok s' -> s' = addCells s (flat_map g l).
Proof.
  induction l as [|x l IH]; intros Hf s s'; simpl.
  - now intros [= <-].
  - destruct (f x s) as [s1|] eqn:E; simpl; [|discriminate].
    intros Hs'. apply IH in Hs'.
    + rewrite addCells_app. apply Hf in E; [|now left]. now subst.
    + intros y t t' Hy. apply Hf. now right.
Qed.

Lemma foldM_total f (g : ITile -> list Cell) l :
  (forall x s, In x l -> f x s = Ok (addCells s (g x))) ->
  forall s, foldM f l s = Ok (addCells s (flat_map g l)).
Proof.
  induction l as [|x l IH]; intros Hf s; simpl; [reflexivity|].
  rewrite Hf by now left. simpl. rewrite IH.
  - now rewrite addCells_app.
  - intros y t Hy. apply Hf. now right.
Qed.

Lemma filterM_Ok {A : Type} (f : A -> outcome bool) l : forall l',
  filterM f l = Ok l' -> l' = filter (okTrue f) l.
Proof.
  induction l as [|x l IH]; intros l'; simpl.
  - now intros [= <-].
  - unfold okTrue at 1. destruct (f x) as [b|]; simpl; [|discriminate].
    destruct (filterM f l) as [ys|]; simpl; [|discriminate].
    intros [= <-]. now rewrite (IH ys eq_refl).
Qed.

Lemma filterM_total {A : Type} (f : A -> outcome bool) l :
  (forall x, In x l -> exists b, f x = Ok b) ->
  filterM f l = Ok (filter (okTrue f) l).
Proof.
  induction l as [|x l IH]; intros Hf; simpl; [reflexivity|].
  destruct (Hf x (or_introl eq_refl)) as [b Hb].
  unfold okTrue at 1. rewrite Hb. simpl.
  rewrite IH by (intros y Hy; apply Hf; now right). reflexivity.
Qed.

End Loops.

(** ** Each pass adds exactly the cells of its rule *)

Section Rules.

Lemma rectangular_tileAt board n :
  rectangular board -> inside board n = true ->
  exists t, tileAt board (row n) (col n) = Ok t.
Proof.
  intros R I. apply inside_bounds in I. destruct I as [[R0 R1] [C0 C1]].
  unfold tileAt, rowCount in *.
  replace (row n <? 0) with false by (symmetry; apply Z.ltb_ge; lia).
  replace (col n <? 0) with false by (symmetry; apply Z.ltb_ge; lia).
  simpl.
  destruct (nth_error board (Z.to_nat (row n))) as [tiles|] eqn:E.
  - assert (L : Z.of_nat (length tiles) = width board).
    { apply nth_error_In in E. unfold rectangular, rectangularb in R.
      rewrite forallb_forall in R. apply Z.eqb_eq. now apply R. }
    destruct (nth_error tiles (Z.to_nat (col n))) as [t|] eqn:F; eauto.
    apply nth_error_None in F. lia.
  - apply nth_error_None in E. lia.
Qed.

Lemma okTrue_hidden board n :
  okTrue (fun n => neighborTile <- tileAt board (row n) (col n) ;;
                   Ok (isHidden neighborTile)) n
  = hiddenAt board n.
Proof.
  unfold okTrue, hiddenAt. now destruct (tileAt board (row n) (col n)).
Qed.

Lemma okTrue_hidden_unmarked board mineSet n :
  okTrue (fun n => neighborTile <- tileAt board (row n) (col n) ;;
                   Ok (isHidden neighborTile
                       && negb (has mineSet (cellKey (row n) (col n))))) n
  = hiddenAt board n && negb (has mineSet (keyOf n)).
Proof.
  unfold okTrue, hiddenAt, keyOf.
  now destruct (tileAt board (row n) (col n)).
Qed.

Lemma pass1_body_Ok board r c tile s s' :
  pass1_body board r c tile s = Ok s' ->
  s' = addCells s (rule1 board (r, c, tile)).
Proof.
  unfold pass1_body, rule1. destruct (state tile) as [|value].
  { now intros [= <-]. }
  rewrite getNeighbors_spec. simpl.
  destruct (filterM _ _) as [hs|] eqn:F; simpl; [|discriminate].
  apply filterM_Ok in F.
  rewrite (filter_ext _ _ (okTrue_hidden board)) in F. subst hs.
  now destruct (value =? _); intros [= <-].
Qed.

Lemma pass1_body_total board r c tile s :
  rectangular board ->
  pass1_body board r c tile s = Ok (addCells s (rule1 board (r, c, tile))).
Proof.
  intros R. unfold pass1_body, rule1. destruct (state tile) as [|value].
  { reflexivity. }
  rewrite getNeighbors_spec. simpl.
  rewrite filterM_total.
  - simpl. rewrite (filter_ext _ _ (okTrue_hidden board)).
    now destruct (value =? _).
  - intros n Hn. apply In_neighborsOf in Hn. destruct Hn as [_ I].
    destruct (rectangular_tileAt board n R I) as [t ->]. simpl. eauto.
Qed.

Lemma pass2_body_Ok board mineSet r c tile s s' :
  pass2_body board mineSet r c tile s = Ok s' ->
  s' = addCells s (rule2 board mineSet (r, c, tile)).
Proof.
  unfold pass2_body, rule2. destruct (state tile) as [|value].
  { now intros [= <-]. }
  rewrite getNeighbors_spec. simpl. fold keyOf.
  change (fun n => has mineSet (cellKey (row n) (col n)))
    with (fun n => has mineSet (keyOf n)).
  destruct (_ =? value); [|now intros [= <-]].
  destruct (filterM _ _) as [hs|] eqn:F; simpl; [|discriminate].
  apply filterM_Ok in F.
  rewrite (filter_ext _ _ (okTrue_hidden_unmarked board mineSet)) in F.
  subst hs. now intros [= <-].
Qed.

Lemma pass2_body_total board mineSet r c tile s :
  rectangular board ->
  pass2_body board mineSet r c tile s
  = Ok (addCells s (rule2 board mineSet (r, c, tile))).
Proof.
  intros R. unfold pass2_body, rule2. destruct (state tile) as [|value].
  { reflexivity. }
  rewrite getNeighbors_spec. simpl.
  change (fun n => has mineSet (cellKey (row n) (col n)))
    with (fun n => has mineSet (keyOf n)).
  destruct (_ =? value); [|reflexivity].
  rewrite filterM_total.
  - simpl. now rewrite (filter_ext _ _ (okTrue_hidden_unmarked board mineSet)).
  - intros n Hn. apply In_neighborsOf in Hn. destruct Hn as [_ I].
    destruct (rectangular_tileAt board n R I) as [t ->]. simpl. eauto.
Qed.

Lemma pass1_Ok board m : pass1 board = Ok m -> m = mineKeys board.
Proof.
  unfold pass1. rewrite forEachTile_foldM. apply foldM_Ok.
  intros [[r c] t] s s' _. apply pass1_body_Ok.
Qed.

Lemma pass2_Ok board m s : pass2 board m = Ok s -> s = safeKeys board m.
Proof.
  unfold pass2. rewrite forEachTile_foldM. apply foldM_Ok.
  intros [[r c] t] s0 s' _. apply pass2_body_Ok.
Qed.

Lemma pass1_total board : rectangular board -> pass1 board = Ok (mineKeys board).
Proof.
  intros R. unfold pass1. rewrite forEachTile_foldM. apply foldM_total.
  intros [[r c] t] s _. now apply pass1_body_total.
Qed.

Lemma pass2_total board m :
  rectangular board -> pass2 board m = Ok (safeKeys board m).
Proof.
  intros R. unfold pass2. rewrite forEachTile_foldM. apply foldM_total.
  intros [[r c] t] s _. now apply pass2_body_total.
Qed.

Lemma findMoves_Ok board res : findMoves board = Ok res -> res = movesOf board.
Proof.
  unfold findMoves.
  destruct (pass1 board) as [m|] eqn:P1; simpl; [|discriminate].
  destruct (pass2 board m) as [s|] eqn:P2; simpl; [|discriminate].
  apply pass1_Ok in P1. subst m. apply pass2_Ok in P2. subst s.
  now intros [= <-].
Qed.

Lemma findMoves_total board :
  rectangular board -> findMoves board = Ok (movesOf board).
Proof.
  intros R. unfold findMoves.
  rewrite (pass1_total board R). simpl.
  now rewrite (pass2_total board _ R).
Qed.

End Rules.

(** ** Membership in the computed sets *)

Section Membership.

Lemma In_rule1 board r c t n :
  In n (rule1 board (r, c, t)) <->
  exists value,
    state t = number value
    /\ In n (neighborsOf board (Z.of_nat r) (Z.of_nat c))
    /\ hiddenAt board n = true
    /\ value = Z.of_nat (length (filter (hiddenAt board)
                   (neighborsOf board (Z.of_nat r) (Z.of_nat c)))).
Proof.
  unfold rule1. destruct (state t) as [|v].
  - split; [intros []|]. intros (value & E & _). discriminate.
  - destruct (v =? _) eqn:E.
    + apply Z.eqb_eq in E. rewrite filter_In. split.
      * intros [Hn Hh]. exists v. auto.
      * intros (value & _ & Hn & Hh & _). auto.
    + apply Z.eqb_neq in E. split; [intros []|].
      intros (value & [= <-] & _ & _ & Hv). contradiction.
Qed.

Lemma In_rule2 board m r c t n :
  In n (rule2 board m (r, c, t)) <->
  exists value,
    state t = number value
    /\ In n (neighborsOf board (Z.of_nat r) (Z.of_nat c))
    /\ hiddenAt board n = true
    /\ has m (keyOf n) = false
    /\ Z.of_nat (length (filter (fun n => has m (keyOf n))
                   (neighborsOf board (Z.of_nat r) (Z.of_nat c)))) = value.
Proof.
  unfold rule2. destruct (state t) as [|v].
  - split; [intros []|]. intros (value & E & _). discriminate.
  - destruct (_ =? v) eqn:E.
    + apply Z.eqb_eq in E. rewrite filter_In, andb_true_iff, negb_true_iff.
      split.
      * intros (Hn & Hh & Hm). exists v. auto.
      * intros (value & _ & Hn & Hh & Hm & _). auto.
    + apply Z.eqb_neq in E. split; [intros []|].
      intros (value & [= <-] & _ & _ & _ & Hv). contradiction.
Qed.

Lemma In_mineKeys board k :
  In k (mineKeys board) <->
  exists r c t n,
    In (r, c, t) (tilesOf board) /\ In n (rule1 board (r, c, t))
    /\ k = keyOf n.
Proof.
  unfold mineKeys. rewrite In_addCells. split.
  - intros [[]|(n & Hn & E)]. apply in_flat_map in Hn.
    destruct Hn as ([[r c] t] & Hx & Hn). exists r, c, t, n. auto.
  - intros (r & c & t & n & Hx & Hn & E). right. exists n. split; [|exact E].
    apply in_flat_map. exists (r, c, t). auto.
Qed.

Lemma In_safeKeys board m k :
  In k (safeKeys board m) <->
  exists r c t n,
    In (r, c, t) (tilesOf board) /\ In n (rule2 board m (r, c, t))
    /\ k = keyOf n.
Proof.
  unfold safeKeys. rewrite In_addCells. split.
  - intros [[]|(n & Hn & E)]. apply in_flat_map in Hn.
    destruct Hn as ([[r c] t] & Hx & Hn). exists r, c, t, n. auto.
  - intros (r & c & t & n & Hx & Hn & E). right. exists n. split; [|exact E].
    apply in_flat_map. exists (r, c, t). auto.
Qed.

Lemma cellKeys_addCells cells : cellKeys (addCells [] cells).
Proof.
  intros k Hk. apply In_addCells in Hk.
  destruct Hk as [[]|(n & _ & E)]. eauto.
Qed.

Lemma keyToCell_keyOf n : keyToCell (keyOf n) = cell (row n) (col n).
Proof. apply keyToCell_cellKey. Qed.

Lemma keyOf_inj n n' : keyOf n = keyOf n' -> n = n'.
Proof.
  unfold keyOf. intros E. apply cellKey_inj in E.
  destruct n, n'; simpl in *. destruct E. now subst.
Qed.

Lemma In_decoded s r c :
  cellKeys s ->
  In (cell r c) (map keyToCell s) <-> In (cellKey r c) s.
Proof.
  intros CK. rewrite in_map_iff. split.
  - intros (k & E & Hk). destruct (CK k Hk) as [n ->].
    rewrite keyToCell_keyOf in E. unfold cell in E. inversion E.
    exact Hk.
  - intros Hk. exists (cellKey r c). split; [apply keyToCell_cellKey|exact Hk].
Qed.

Lemma decoded_is_cell s oc :
  cellKeys s -> In oc (map keyToCell s) ->
  exists n, oc = cell (row n) (col n) /\ In (keyOf n) s.
Proof.
  intros CK Hoc. apply in_map_iff in Hoc. destruct Hoc as (k & E & Hk).
  destruct (CK k Hk) as [n ->]. exists n.
  rewrite keyToCell_keyOf in E. auto.
Qed.

Lemma NoDup_decoded s : cellKeys s -> NoDup s -> NoDup (map keyToCell s).
Proof.
  intros CK ND. apply NoDup_map_NoDup_ForallPairs; [|exact ND].
  intros a b Ha Hb E.
  destruct (CK a Ha) as [n ->]. destruct (CK b Hb) as [n' ->].
  rewrite !keyToCell_keyOf in E. unfold cell in E. inversion E.
  destruct n, n'; simpl in *. now subst.
Qed.

Lemma hiddenAt_true board n :
  hiddenAt board n = true <->
  exists t, tileAt board (row n) (col n) = Ok t /\ state t = hidden.
Proof.
  unfold hiddenAt, isHidden.
  destruct (tileAt board (row n) (col n)) as [t|].
  - destruct (state t) eqn:E; split.
    + eauto.
    + reflexivity.
    + discriminate.
    + intros (t' & [= <-] & E'). congruence.
  - split; [discriminate|]. intros (t & E & _). discriminate.
Qed.

End Membership.

(** ** Boards that agree on every tile state *)

Section Snapshot.

Variables b1 b2 : Board.
Hypothesis same : sameStates b1 b2.

Lemma sameStates_length : length b1 = length b2.
Proof.
unfold sameStates in same. apply (f_equal (@length _)) in same.
now rewrite !length_map in same.
Qed.

Lemma sameStates_row r tiles1 :
nth_error b1 r = Some tiles1 ->
exists tiles2, nth_error b2 r = Some tiles2
               /\ map state tiles1 = map state tiles2.
Proof.
intros E. unfold sameStates in same.
apply (f_equal (fun l => nth_error l r)) in same.
rewrite !nth_error_map, E in same. simpl in same.
destruct (nth_error b2 r) as [tiles2|]; [|discriminate].
inversion same. eauto.
Qed.

Lemma sameStates_width : width b1 = width b2.
Proof.
unfold sameStates in same.
destruct b1 as [|r1 rest1], b2 as [|r2 rest2]; simpl in *;
  try discriminate; [reflexivity|].
injection same as E _. apply (f_equal (@length _)) in E.
rewrite !length_map in E. now rewrite E.
Qed.

Lemma sameStates_neighborsOf r c : neighborsOf b1 r c = neighborsOf b2 r c.
Proof.
unfold neighborsOf. apply filter_ext. intros n.
unfold inside, rowCount. now rewrite sameStates_length, sameStates_width.
Qed.

End Snapshot.

Lemma sameStates_sym b1 b2 : sameStates b1 b2 -> sameStates b2 b1.
Proof. unfold sameStates. auto. Qed.

Lemma sameStates_hidden b1 b2 r c :
  sameStates b1 b2 ->
  (t <- tileAt b1 r c ;; Ok (isHidden t))
  = (t <- tileAt b2 r c ;; Ok (isHidden t)).
Proof.
  assert (W : forall a b t, sameStates a b -> tileAt a r c = Ok t ->
                exists t', tileAt b r c = Ok t' /\ state t = state t').
  { intros a b t S E. unfold tileAt in *.
    destruct ((r <? 0) || (c <? 0)); [discriminate|].
    destruct (nth_error a (Z.to_nat r)) as [tiles|] eqn:Er; [|discriminate].
    destruct (sameStates_row a b S _ _ Er) as (tiles' & -> & M).
    destruct (nth_error tiles (Z.to_nat c)) as [t0|] eqn:Ec; [|discriminate].
    inversion E. subst t0.
    apply (f_equal (fun l => nth_error l (Z.to_nat c))) in M.
    rewrite !nth_error_map, Ec in M. simpl in M.
    destruct (nth_error tiles' (Z.to_nat c)) as [t'|]; [|discriminate].
    inversion M. eauto. }
  intros S.
  destruct (tileAt b1 r c) as [t|] eqn:E1.
  - destruct (W _ _ _ S E1) as (t' & -> & Et). simpl.
    unfold isHidden. now rewrite Et.
  - destruct (tileAt b2 r c) as [t'|] eqn:E2; [|reflexivity].
    destruct (W _ _ _ (sameStates_sym _ _ S) E2) as (t & E & _). congruence.
Qed.

Lemma filterM_ext {A : Type} (f g : A -> outcome bool) l :
  (forall x, f x = g x) -> filterM f l = filterM g l.
Proof.
  intros E. induction l as [|x l IH]; simpl; [reflexivity|].
  now rewrite E, IH.
Qed.

Lemma pass1_body_ext b1 b2 r c t1 t2 s :
  sameStates b1 b2 -> state t1 = state t2 ->
  pass1_body b1 r c t1 s = pass1_body b2 r c t2 s.
Proof.
  intros S E. unfold pass1_body. rewrite E.
  destruct (state t2) as [|value]; [reflexivity|].
  rewrite !getNeighbors_spec, (sameStates_neighborsOf b1 b2 S). simpl.
  erewrite filterM_ext; [reflexivity|].
  intros n. now apply sameStates_hidden.
Qed.

Lemma pass2_body_ext b1 b2 m r c t1 t2 s :
  sameStates b1 b2 -> state t1 = state t2 ->
  pass2_body b1 m r c t1 s = pass2_body b2 m r c t2 s.
Proof.
  intros S E. unfold pass2_body. rewrite E.
  destruct (state t2) as [|value]; [reflexivity|].
  rewrite !getNeighbors_spec, (sameStates_neighborsOf b1 b2 S). simpl.
  destruct (_ =? value); [|reflexivity].
  erewrite filterM_ext; [reflexivity|].
  intros n. simpl.
  pose proof (sameStates_hidden b1 b2 (row n) (col n) S) as Hh.
  destruct (tileAt b1 (row n) (col n)), (tileAt b2 (row n) (col n));
    simpl in *; congruence.
Qed.

Lemma forCols_ext body1 body2 tiles1 : forall tiles2 c s,
  map state tiles1 = map state tiles2 ->
  (forall c t1 t2 s, state t1 = state t2 -> body1 c t1 s = body2 c t2 s) ->
  forCols body1 c tiles1 s = forCols body2 c tiles2 s.
Proof.
  induction tiles1 as [|t1 tiles1 IH]; intros [|t2 tiles2] c s M B;
    simpl in *; try discriminate; [reflexivity|].
  inversion M as [[Et Em]]. rewrite (B c t1 t2 s Et).
  destruct (body2 c t2 s); simpl; auto.
Qed.

Lemma forRows_ext body1 body2 rows1 : forall rows2 r s,
  map (map state) rows1 = map (map state) rows2 ->
  (forall r c t1 t2 s, state t1 = state t2 ->
                       body1 r c t1 s = body2 r c t2 s) ->
  forRows body1 r rows1 s = forRows body2 r rows2 s.
Proof.
  induction rows1 as [|ts1 rows1 IH]; intros [|ts2 rows2] r s M B;
    simpl in *; try discriminate; [reflexivity|].
  inversion M as [[Et Em]].
  rewrite (forCols_ext (body1 r) (body2 r) ts1 ts2 0%nat s Et (B r)).
  destruct (forCols (body2 r) 0 ts2 s); simpl; auto.
Qed.

(** The result depends on the board only through its grid of tile states. *)
Lemma findMoves_snapshot b1 b2 :
  sameStates b1 b2 -> findMoves b1 = findMoves b2.
Proof.
  intros S. unfold findMoves, pass1, pass2, forEachTile.
  rewrite (forRows_ext (pass1_body b1) (pass1_body b2) b1 b2 0%nat [] S)
    by (intros; now apply pass1_body_ext).
  destruct (forRows (pass1_body b2) 0 b2 []) as [m|]; simpl; [|reflexivity].
  rewrite (forRows_ext (pass2_body b1 m) (pass2_body b2 m) b1 b2 0%nat [] S)
    by (intros; now apply pass2_body_ext).
  reflexivity.
Qed.

Lemma memCell_In oc cells : memCell oc cells = true <-> In oc cells.
Proof.
  assert (Q : forall a b, jsval_eqb a b = true <-> a = b).
  { intros [x| |] [y| |]; simpl; split; try congruence; try reflexivity.
    - intros E. apply Z.eqb_eq in E. now subst.
    - intros [= ->]. apply Z.eqb_refl. }
  unfold memCell. rewrite existsb_exists. split.
  - intros (x & Hx & E). unfold outCell_eqb in E.
    apply andb_true_iff in E. destruct E as [E1 E2].
    apply Q in E1. apply Q in E2. destruct oc, x; simpl in *. now subst.
  - intros Hoc. exists oc. split; [exact Hoc|].
    unfold outCell_eqb. apply andb_true_iff. split; now apply Q.
Qed.

Lemma memCell_decoded s n :
  cellKeys s ->
  memCell (cell (row n) (col n)) (map keyToCell s) = has s (keyOf n).
Proof.
  intros CK.
  destruct (has s (keyOf n)) eqn:E.
  - apply memCell_In. apply In_decoded; [exact CK|]. now apply has_In.
  - destruct (memCell _ _) eqn:F; [|reflexivity].
    apply memCell_In in F. apply In_decoded in F; [|exact CK].
    apply has_In in F. unfold keyOf in E. congruence.
Qed.

Lemma tile_visited board r c t :
  tileAt board r c = Ok t ->
  In (Z.to_nat r, Z.to_nat c, t) (tilesOf board)
  /\ Z.of_nat (Z.to_nat r) = r /\ Z.of_nat (Z.to_nat c) = c.
Proof.
  intros E. apply tileAt_Ok in E. destruct E as (Hr & Hc & Hin).
  repeat split; [exact Hin|lia|lia].
Qed.

(** * The specification *)

(** C4: [getNeighbors] never throws; it returns the eight offset positions
    around [(r, c)], in the fixed offset order, filtered by the bounds test.
    Hence at most 8 positions, each inside
    [0 <= row < board.length] and [0 <= col < board[0].length], and none
    equal to [(r, c)] itself, for all integers [r] and [c]. *)
Theorem getNeighbors_clipped (board : Board) (r c : Z) :
  exists ns,
    getNeighbors board r c = Ok ns
    /\ ns = filter (inside board)
              [ mkCell (r - 1) (c - 1); mkCell (r - 1) c; mkCell (r - 1) (c + 1);
                mkCell r (c - 1);                         mkCell r (c + 1);
                mkCell (r + 1) (c - 1); mkCell (r + 1) c; mkCell (r + 1) (c + 1) ]
    /\ (0 <= length ns <= 8)%nat
    /\ forall n, In n ns ->
         0 <= row n < Z.of_nat (length board)
         /\ 0 <= col n < width board
         /\ n <> mkCell r c.
Proof.
  exists (neighborsOf board r c).
  assert (O : offsets r c =
              [ mkCell (r - 1) (c - 1); mkCell (r - 1) c; mkCell (r - 1) (c + 1);
                mkCell r (c - 1);                         mkCell r (c + 1);
                mkCell (r + 1) (c - 1); mkCell (r + 1) c; mkCell (r + 1) (c + 1) ]).
  { unfold offsets, directions. simpl. repeat f_equal; lia. }
  split; [apply getNeighbors_spec|].
  split; [unfold neighborsOf; now rewrite O|].
  split.
  - split; [lia|]. unfold neighborsOf.
    etransitivity; [apply filter_length_le|]. rewrite O. simpl. lia.
  - intros n Hn. apply In_neighborsOf in Hn. destruct Hn as [Ho Hi].
    apply inside_bounds in Hi. apply In_offsets in Ho.
    unfold rowCount in Hi. intuition.
Qed.

(** C10: on a board without rows [getNeighbors] returns the empty sequence
    for all integers [row] and [col]: the row part of the bounds test,
    [newRow >= 0 && newRow < board.length], is false for every [newRow], so
    the test yields [false] without evaluating [board[0].length] (which
    would throw). *)
Theorem getNeighbors_empty_board (r c : Z) :
  getNeighbors [] r c = Ok []
  /\ forall newRow newCol,
       (newRow >=? 0) && (newRow <? Z.of_nat (length (@nil (list Tile)))) = false
       /\ inBounds [] newRow newCol = Ok false.
Proof.
  assert (A : forall newRow,
             (newRow >=? 0) && (newRow <? Z.of_nat (length (@nil (list Tile))))
             = false).
  { intros newRow. simpl.
    destruct (newRow >=? 0) eqn:E1, (newRow <? 0) eqn:E2; simpl;
      try reflexivity.
    rewrite Z.geb_leb in E1. apply Z.leb_le in E1. apply Z.ltb_lt in E2. lia. }
  assert (B : forall newRow newCol, inBounds [] newRow newCol = Ok false).
  { intros newRow newCol. unfold inBounds. now rewrite A. }
  split; [|intros newRow newCol; split; [apply A|apply B]].
  unfold getNeighbors, directions. simpl. now rewrite !B.
Qed.

(** C5: on a rectangular board [findMoves] returns a result (it does not
    throw), and on the board with 0 rows that result has an empty safe
    array and an empty mine array. *)
Theorem findMoves_returns (board : Board) :
  rectangular board ->
  exists res,
    findMoves board = Ok res
    /\ (length board = 0%nat -> res = mkMoves [] []).
Proof.
  intros R. exists (movesOf board). split; [now apply findMoves_total|].
  intros L. destruct board; [reflexivity|discriminate].
Qed.

Lemma findMoves_returns_witness :
  rectangular []
  /\ exists res, findMoves [] = Ok res /\ res = mkMoves [] [].
Proof.
  split; [reflexivity|].
  destruct (findMoves_returns [] eq_refl) as (res & E & L).
  exists res. split; [exact E|exact (L eq_refl)].
Defined.

(** C6 (Scenario C): on the 2x3 board [2 . .] / [1 . .] [findMoves] returns
    mines (0,1) and (1,1) and no safe cell; the clue 1 at (1,0) has two
    identified mine neighbours and leaves the safe set as it was. *)
Theorem scenario_C :
  findMoves board2 = Ok (mkMoves [] [cell 0 1; cell 1 1])
  /\ pass1 board2 = Ok ["0_1"; "1_1"]%string
  /\ (exists ns,
        getNeighbors board2 1 0 = Ok ns
        /\ length (filter (fun n => has ["0_1"; "1_1"]%string
                                        (cellKey (row n) (col n))) ns) = 2%nat)
  /\ forall safeSet,
       pass2_body board2 ["0_1"; "1_1"]%string 1 0 (N 1 0 1) safeSet
       = Ok safeSet.
Proof.
  split; [vm_compute; reflexivity|].
  split; [vm_compute; reflexivity|].
  split.
  - eexists. split; [vm_compute; reflexivity|]. vm_compute. reflexivity.
  - intros safeSet. vm_compute. reflexivity.
Qed.

(** C1 (pass 1): on a rectangular board [findMoves] returns, and a position
    [(pr, pc)] is in the returned mine array exactly when some tile at
    [(r, c)] shows a number [value], [(pr, pc)] is one of its in-bounds
    neighbours, the tile at [(pr, pc)] is hidden, and [value] equals the
    number of hidden neighbours of [(r, c)].  The mine array holds nothing
    but such integer positions. *)
Theorem pass1_mines (board : Board) :
  rectangular board ->
  exists res,
    findMoves board = Ok res
    /\ (forall oc, In oc (mineCells res) -> exists pr pc, oc = cell pr pc)
    /\ forall pr pc,
         In (cell pr pc) (mineCells res) <->
         exists r c t value ns tp,
           tileAt board r c = Ok t /\ state t = number value
           /\ getNeighbors board r c = Ok ns
           /\ In (mkCell pr pc) ns
           /\ tileAt board pr pc = Ok tp /\ state tp = hidden
           /\ value = Z.of_nat (length (filter (hiddenAt board) ns)).
Proof.
  intros R. exists (movesOf board).
  split; [now apply findMoves_total|]. simpl.
  split.
  { intros oc Hoc.
    apply decoded_is_cell in Hoc; [|apply cellKeys_addCells].
    destruct Hoc as (n & -> & _). eauto. }
  intros pr pc.
  rewrite In_decoded by apply cellKeys_addCells.
  rewrite In_mineKeys. split.
  - intros (r & c & t & n & Hx & Hn & E).
    change (cellKey pr pc) with (keyOf (mkCell pr pc)) in E.
    apply keyOf_inj in E. subst n.
    apply In_rule1 in Hn. destruct Hn as (value & Hs & Hn & Hh & Hv).
    apply hiddenAt_true in Hh. destruct Hh as (tp & Htp & Hhid).
    exists (Z.of_nat r), (Z.of_nat c), t, value,
      (neighborsOf board (Z.of_nat r) (Z.of_nat c)), tp.
    rewrite getNeighbors_spec, tileAt_of_nat. simpl in Htp. auto 10.
  - intros (r & c & t & value & ns & tp & Ht & Hs & Hns & Hn & Htp & Hhid & Hv).
    rewrite getNeighbors_spec in Hns. inversion Hns. subst ns.
    apply tile_visited in Ht. destruct Ht as (Hx & Er & Ec).
    exists (Z.to_nat r), (Z.to_nat c), t, (mkCell pr pc).
    split; [exact Hx|]. split; [|reflexivity].
    apply In_rule1. rewrite Er, Ec. exists value.
    repeat split; try assumption.
    apply hiddenAt_true. exists tp. auto.
Qed.

Lemma pass1_mines_witness :
  rectangular board3
  /\ exists res,
       findMoves board3 = Ok res /\ In (cell 0 1) (mineCells res).
Proof.
  split; [reflexivity|].
  destruct (pass1_mines board3 eq_refl) as (res & E & _ & M).
  exists res. split; [exact E|].
  apply M. exists 0, 0, (N 0 0 1), 1, [mkCell 0 1], (H 0 1).
  repeat split; simpl; auto.
Defined.

(** C2 (pass 2): on a rectangular board, the mine array returned is the
    completed result of pass 1, and a position [(pr, pc)] is in the returned
    safe array exactly when its tile is hidden, it is not in that mine set,
    and it is an in-bounds neighbour of some tile at [(r, c)] showing a
    number [value] such that the number of neighbours of [(r, c)] in the
    mine set equals [value]. *)
Theorem pass2_safe (board : Board) :
  rectangular board ->
  exists mineSet res,
    pass1 board = Ok mineSet
    /\ findMoves board = Ok res
    /\ mineCells res = map keyToCell mineSet
    /\ (forall oc, In oc (safeCells res) -> exists pr pc, oc = cell pr pc)
    /\ forall pr pc,
         In (cell pr pc) (safeCells res) <->
         (exists tp, tileAt board pr pc = Ok tp /\ state tp = hidden)
         /\ ~ In (cell pr pc) (mineCells res)
         /\ exists r c t value ns,
              tileAt board r c = Ok t /\ state t = number value
              /\ getNeighbors board r c = Ok ns
              /\ In (mkCell pr pc) ns
              /\ Z.of_nat (length (filter
                     (fun n => memCell (cell (row n) (col n)) (mineCells res))
                     ns)) = value.
Proof.
  intros R. exists (mineKeys board), (movesOf board).
  split; [now apply pass1_total|].
  split; [now apply findMoves_total|]. simpl.
  split; [reflexivity|].
  split.
  { intros oc Hoc.
    apply decoded_is_cell in Hoc; [|apply cellKeys_addCells].
    destruct Hoc as (n & -> & _). eauto. }
  intros pr pc.
  assert (F : forall ns,
             filter (fun n => memCell (cell (row n) (col n))
                                      (map keyToCell (mineKeys board))) ns
             = filter (fun n => has (mineKeys board) (keyOf n)) ns).
  { intros ns. apply filter_ext. intros n.
    apply memCell_decoded, cellKeys_addCells. }
  rewrite !In_decoded by apply cellKeys_addCells.
  rewrite In_safeKeys. split.
  - intros (r & c & t & n & Hx & Hn & E).
    change (cellKey pr pc) with (keyOf (mkCell pr pc)) in E.
    apply keyOf_inj in E. subst n.
    apply In_rule2 in Hn. destruct Hn as (value & Hs & Hn & Hh & Hm & Hv).
    split; [now apply hiddenAt_true in Hh|].
    split; [now apply has_false in Hm|].
    exists (Z.of_nat r), (Z.of_nat c), t, value,
      (neighborsOf board (Z.of_nat r) (Z.of_nat c)).
    rewrite getNeighbors_spec, tileAt_of_nat, F. auto 10.
  - intros (Hh & Hm & r & c & t & value & ns & Ht & Hs & Hns & Hn & Hv).
    rewrite getNeighbors_spec in Hns. inversion Hns. subst ns.
    rewrite F in Hv.
    apply tile_visited in Ht. destruct Ht as (Hx & Er & Ec).
    exists (Z.to_nat r), (Z.to_nat c), t, (mkCell pr pc).
    split; [exact Hx|]. split; [|reflexivity].
    apply In_rule2. rewrite Er, Ec. exists value.
    repeat split; try assumption.
    + now apply hiddenAt_true.
    + now apply has_false.
Qed.

Lemma pass2_safe_witness :
  rectangular board3
  /\ exists res,
       findMoves board3 = Ok res /\ In (cell 0 3) (safeCells res).
Proof.
  split; [reflexivity|].
  destruct (pass2_safe board3 eq_refl) as (m & res & P & E & M & _ & S).
  exists res. split; [exact E|].
  apply S. split; [exists (H 0 3); split; reflexivity|].
  rewrite M. vm_compute in P. inversion P. subst m.
  split.
  - simpl. intros [D|[]]. discriminate D.
  - exists 0, 2, (N 0 2 1), 1, [mkCell 0 1; mkCell 0 3].
    repeat split; simpl; auto.
Defined.

(** C3: whenever [findMoves] returns, no position occurs both in the safe
    array and in the mine array. *)
Theorem findMoves_disjoint (board : Board) (res : Moves) :
  findMoves board = Ok res ->
  forall oc, In oc (safeCells res) -> ~ In oc (mineCells res).
Proof.
  intros E oc Hs Hm. apply findMoves_Ok in E. subst res. simpl in *.
  apply decoded_is_cell in Hs; [|apply cellKeys_addCells].
  destruct Hs as (n & -> & Hs).
  apply In_decoded in Hm; [|apply cellKeys_addCells].
  apply In_safeKeys in Hs. destruct Hs as (r & c & t & n' & _ & Hn & K).
  apply keyOf_inj in K. subst n'.
  apply In_rule2 in Hn. destruct Hn as (_ & _ & _ & _ & Hu & _).
  apply has_false in Hu. contradiction.
Qed.

Lemma findMoves_disjoint_witness :
  findMoves board3 = Ok (mkMoves [cell 0 3] [cell 0 1])
  /\ ~ In (cell 0 3) [cell 0 1].
Proof.
  split; [vm_compute; reflexivity|].
  apply (findMoves_disjoint board3 (mkMoves [cell 0 3] [cell 0 1]));
    [vm_compute; reflexivity|simpl; auto].
Defined.

(** C7: whenever [findMoves] returns, neither returned array holds a
    position twice; and building a key [row + '_' + col] and decoding it
    again by split and [Number] gives back the coordinates, for all
    nonnegative integers and so for every position [getNeighbors] returns. *)
Theorem findMoves_no_duplicates (board : Board) (res : Moves) :
  findMoves board = Ok res ->
  NoDup (safeCells res)
  /\ NoDup (mineCells res)
  /\ (forall r c, 0 <= r -> 0 <= c -> keyToCell (cellKey r c) = cell r c)
  /\ forall r c ns n,
       getNeighbors board r c = Ok ns -> In n ns ->
       0 <= row n /\ 0 <= col n
       /\ keyToCell (cellKey (row n) (col n)) = cell (row n) (col n).
Proof.
  intros E. apply findMoves_Ok in E. subst res. simpl.
  split.
  { apply NoDup_decoded; [apply cellKeys_addCells|].
    apply NoDup_addCells. constructor. }
  split.
  { apply NoDup_decoded; [apply cellKeys_addCells|].
    apply NoDup_addCells. constructor. }
  split.
  { intros r c _ _. apply keyToCell_cellKey. }
  intros r c ns n Hns Hn. rewrite getNeighbors_spec in Hns.
  inversion Hns. subst ns. apply In_neighborsOf in Hn.
  destruct Hn as [_ I]. apply inside_bounds in I.
  repeat split; try lia. apply keyToCell_cellKey.
Qed.

Lemma findMoves_no_duplicates_witness :
  findMoves board3 = Ok (mkMoves [cell 0 3] [cell 0 1])
  /\ NoDup [cell 0 3] /\ NoDup [cell 0 1]
  /\ keyToCell (cellKey 12 7) = cell 12 7.
Proof.
  split; [vm_compute; reflexivity|].
  destruct (findMoves_no_duplicates board3 (mkMoves [cell 0 3] [cell 0 1]))
    as (S & M & K & _); [vm_compute; reflexivity|].
  split; [exact S|]. split; [exact M|]. apply K; lia.
Defined.

(** C9: whenever [findMoves] returns, every position in either returned
    array is an integer position inside the board whose tile in the input
    board is hidden; no position of a numbered tile is concluded. *)
Theorem findMoves_hidden_in_bounds (board : Board) (res : Moves) :
  findMoves board = Ok res ->
  forall oc, In oc (safeCells res) \/ In oc (mineCells res) ->
  exists r c t,
    oc = cell r c
    /\ 0 <= r < Z.of_nat (length board) /\ 0 <= c < width board
    /\ tileAt board r c = Ok t /\ state t = hidden.
Proof.
  intros E oc Hoc. apply findMoves_Ok in E. subst res. simpl in Hoc.
  assert (G : exists n rr cc,
             oc = cell (row n) (col n)
             /\ In n (neighborsOf board rr cc) /\ hiddenAt board n = true).
  { destruct Hoc as [Hs|Hm].
    - apply decoded_is_cell in Hs; [|apply cellKeys_addCells].
      destruct Hs as (n & -> & Hs). apply In_safeKeys in Hs.
      destruct Hs as (r & c & t & n' & _ & Hn & K).
      apply keyOf_inj in K. subst n'. apply In_rule2 in Hn.
      destruct Hn as (_ & _ & Hn & Hh & _). exists n. eauto 10.
    - apply decoded_is_cell in Hm; [|apply cellKeys_addCells].
      destruct Hm as (n & -> & Hm). apply In_mineKeys in Hm.
      destruct Hm as (r & c & t & n' & _ & Hn & K).
      apply keyOf_inj in K. subst n'. apply In_rule1 in Hn.
      destruct Hn as (_ & _ & Hn & Hh & _). exists n. eauto 10. }
  destruct G as (n & rr & cc & -> & Hn & Hh).
  apply In_neighborsOf in Hn. destruct Hn as [_ I].
  apply inside_bounds in I. unfold rowCount in I.
  apply hiddenAt_true in Hh. destruct Hh as (t & Ht & Hs).
  exists (row n), (col n), t. intuition.
Qed.

Lemma findMoves_hidden_in_bounds_witness :
  findMoves board3 = Ok (mkMoves [cell 0 3] [cell 0 1])
  /\ exists r c t,
       cell 0 3 = cell r c
       /\ 0 <= r < Z.of_nat (length board3) /\ 0 <= c < width board3
       /\ tileAt board3 r c = Ok t /\ state t = hidden.
Proof.
  split; [vm_compute; reflexivity|].
  apply (findMoves_hidden_in_bounds board3 (mkMoves [cell 0 3] [cell 0 1]));
    [vm_compute; reflexivity|simpl; auto].
Defined.

(** * Further properties of the solver *)

(** ** Counting *)

Lemma filter_length_mono {A : Type} (f g : A -> bool) l :
  (forall x, In x l -> f x = true -> g x = true) ->
  (length (filter f l) <= length (filter g l))%nat.
Proof.
  induction l as [|x l IH]; intros I; simpl; [lia|].
  assert (IH' : (length (filter f l) <= length (filter g l))%nat).
  { apply IH. intros y Hy. apply I. now right. }
  destruct (f x) eqn:F.
  - rewrite (I x (or_introl eq_refl) F). simpl. lia.
  - destruct (g x); simpl; lia.
Qed.

(** A sub-selection that selects as many elements selects the same ones. *)
Lemma filter_length_eq {A : Type} (f g : A -> bool) l :
  (forall x, In x l -> f x = true -> g x = true) ->
  length (filter f l) = length (filter g l) ->
  forall x, In x l -> g x = true -> f x = true.
Proof.
  induction l as [|y l IH]; intros I L x Hx G; [destruct Hx|].
  assert (M : (length (filter f l) <= length (filter g l))%nat).
  { apply filter_length_mono. intros z Hz. apply I. now right. }
  assert (I' : forall z, In z l -> f z = true -> g z = true).
  { intros z Hz. apply I. now right. }
  simpl in L. destruct (f y) eqn:F.
  - rewrite (I y (or_introl eq_refl) F) in L. simpl in L.
    destruct Hx as [->|Hx]; [exact F|]. apply (IH I'); [lia|exact Hx|exact G].
  - destruct (g y) eqn:G'; simpl in L; [lia|].
    destruct Hx as [->|Hx]; [congruence|]. apply (IH I'); [lia|exact Hx|exact G].
Qed.

Lemma forallb_false_exists {A : Type} (p : A -> bool) l :
  forallb p l = false -> exists x, In x l /\ p x = false.
Proof.
  induction l as [|y l IH]; simpl; [discriminate|].
  destruct (p y) eqn:P; simpl.
  - intros E. destruct (IH E) as (x & Hx & Px). exists x. auto.
  - intros _. exists y. auto.
Qed.

(** ** When the reads of a pass succeed, and when one throws *)

Lemma filterM_throws {A : Type} (f : A -> outcome bool) l x :
  In x l -> f x = TypeError -> filterM f l = TypeError.
Proof.
  induction l as [|y l IH]; intros Hx F; [destruct Hx|]. simpl.
  destruct Hx as [->|Hx].
  - now rewrite F.
  - destruct (f y); simpl; [|reflexivity]. now rewrite (IH Hx F).
Qed.

Lemma foldM_throws f l x :
  In x l -> (forall s, f x s = TypeError) ->
  forall s, foldM f l s = TypeError.
Proof.
  induction l as [|y l IH]; intros Hx F s; [destruct Hx|]. simpl.
  destruct Hx as [->|Hx].
  - now rewrite F.
  - destruct (f y s); simpl; [|reflexivity]. now apply IH.
Qed.

Lemma foldM_unchanged f l :
  (forall x s, In x l -> f x s = Ok s) -> forall s, foldM f l s = Ok s.
Proof.
  induction l as [|y l IH]; intros F s; simpl; [reflexivity|].
  rewrite F by now left. simpl. apply IH. intros x t Hx. apply F. now right.
Qed.

Lemma hasTile_true board n :
  hasTile board n = true <-> exists t, tileAt board (row n) (col n) = Ok t.
Proof.
  unfold hasTile. destruct (tileAt board (row n) (col n)) as [t|]; split;
    try discriminate; eauto. intros (t & E). discriminate.
Qed.

Lemma hasTile_false board n :
  hasTile board n = false <-> tileAt board (row n) (col n) = TypeError.
Proof.
  unfold hasTile. destruct (tileAt board (row n) (col n)); split; congruence.
Qed.

Lemma pass1_body_present board r c tile s :
  neighborsPresent board (r, c, tile) = true ->
  pass1_body board r c tile s = Ok (addCells s (rule1 board (r, c, tile))).
Proof.
  unfold neighborsPresent, pass1_body, rule1.
  destruct (state tile) as [|value]; [reflexivity|]. intros P.
  rewrite forallb_forall in P.
  rewrite getNeighbors_spec. simpl.
  rewrite filterM_total.
  - simpl. rewrite (filter_ext _ _ (okTrue_hidden board)).
    now destruct (value =? _).
  - intros n Hn. apply P, hasTile_true in Hn. destruct Hn as [t ->].
    simpl. eauto.
Qed.

Lemma pass2_body_present board mineSet r c tile s :
  neighborsPresent board (r, c, tile) = true ->
  pass2_body board mineSet r c tile s
  = Ok (addCells s (rule2 board mineSet (r, c, tile))).
Proof.
  unfold neighborsPresent, pass2_body, rule2.
  destruct (state tile) as [|value]; [reflexivity|]. intros P.
  rewrite forallb_forall in P.
  rewrite getNeighbors_spec. simpl.
  change (fun n => has mineSet (cellKey (row n) (col n)))
    with (fun n => has mineSet (keyOf n)).
  destruct (_ =? value); [|reflexivity].
  rewrite filterM_total.
  - simpl. now rewrite (filter_ext _ _ (okTrue_hidden_unmarked board mineSet)).
  - intros n Hn. apply P, hasTile_true in Hn. destruct Hn as [t ->].
    simpl. eauto.
Qed.

Lemma pass1_body_absent board r c tile s :
  neighborsPresent board (r, c, tile) = false ->
  pass1_body board r c tile s = TypeError.
Proof.
  unfold neighborsPresent, pass1_body.
  destruct (state tile) as [|value]; [discriminate|]. intros P.
  apply forallb_false_exists in P. destruct P as (n & Hn & Pn).
  apply hasTile_false in Pn.
  rewrite getNeighbors_spec. simpl.
  rewrite (filterM_throws _ _ n Hn); [reflexivity|]. now rewrite Pn.
Qed.

Lemma complete_findMoves board :
  complete board = true -> findMoves board = Ok (movesOf board).
Proof.
  unfold complete. rewrite forallb_forall. intros C.
  unfold findMoves, pass1, pass2. rewrite forEachTile_foldM.
  rewrite (foldM_total _ (rule1 board)).
  - simpl. fold (mineKeys board). rewrite forEachTile_foldM.
    rewrite (foldM_total _ (rule2 board (mineKeys board))); [reflexivity|].
    intros [[r c] t] s Hx. apply pass2_body_present. now apply C.
  - intros [[r c] t] s Hx. apply pass1_body_present. now apply C.
Qed.

Lemma incomplete_findMoves board :
  complete board = false -> findMoves board = TypeError.
Proof.
  unfold complete. intros C. apply forallb_false_exists in C.
  destruct C as ([[r c] t] & Hx & P).
  unfold findMoves, pass1. rewrite forEachTile_foldM.
  rewrite (foldM_throws _ _ (r, c, t) Hx); [reflexivity|].
  intros s. now apply pass1_body_absent.
Qed.

Lemma rectangular_complete board : rectangular board -> complete board = true.
Proof.
  intros R. unfold complete. apply forallb_forall. intros [[r c] t] _.
  unfold neighborsPresent. destruct (state t); [reflexivity|].
  apply forallb_forall. intros n Hn. apply In_neighborsOf in Hn.
  apply hasTile_true. apply rectangular_tileAt; tauto.
Qed.

(** ** Clues that are true of a mine layout *)

Lemma consistent_clue board mine r c t value :
  consistent board mine ->
  In (r, c, t) (tilesOf board) -> state t = number value ->
  mine (Z.of_nat r) (Z.of_nat c) = false
  /\ value = Z.of_nat (length (filter (mineAt mine)
                 (neighborsOf board (Z.of_nat r) (Z.of_nat c)))).
Proof.
  unfold consistent. rewrite forallb_forall. intros C Hx Hs.
  specialize (C _ Hx). unfold clueHolds in C. rewrite Hs in C.
  apply andb_true_iff in C. destruct C as [C1 C2].
  apply negb_true_iff in C1. apply Z.eqb_eq in C2. auto.
Qed.

Lemma mine_is_hidden board mine n :
  consistent board mine -> hasTile board n = true ->
  mineAt mine n = true -> hiddenAt board n = true.
Proof.
  intros C T M. apply hasTile_true in T. destruct T as [t Ht].
  unfold hiddenAt, isHidden. rewrite Ht.
  destruct (state t) as [|v] eqn:Hs; [reflexivity|].
  apply tile_visited in Ht. destruct Ht as (Hx & Er & Ec).
  destruct (consistent_clue _ _ _ _ _ _ C Hx Hs) as [NM _].
  unfold mineAt in M. rewrite Er, Ec in NM. congruence.
Qed.

Lemma present_neighbors board r c t value :
  complete board = true -> In (r, c, t) (tilesOf board) ->
  state t = number value ->
  forall n, In n (neighborsOf board (Z.of_nat r) (Z.of_nat c)) ->
            hasTile board n = true.
Proof.
  unfold complete. rewrite forallb_forall. intros C Hx Hs n Hn.
  specialize (C _ Hx). unfold neighborsPresent in C. rewrite Hs in C.
  rewrite forallb_forall in C. now apply C.
Qed.

Lemma rule1_sound board mine r c t n :
  complete board = true -> consistent board mine ->
  In (r, c, t) (tilesOf board) -> In n (rule1 board (r, c, t)) ->
  mineAt mine n = true.
Proof.
  intros P C Hx Hn. apply In_rule1 in Hn.
  destruct Hn as (value & Hs & Hn & Hh & Hv).
  destruct (consistent_clue _ _ _ _ _ _ C Hx Hs) as [_ Hm].
  apply (filter_length_eq (mineAt mine) (hiddenAt board)
           (neighborsOf board (Z.of_nat r) (Z.of_nat c))); trivial.
  - intros x Hx' M. apply (mine_is_hidden board mine x C); [|exact M].
    now apply (present_neighbors board r c t value).
  - apply Nat2Z.inj. congruence.
Qed.

Lemma mineKeys_sound board mine n :
  complete board = true -> consistent board mine ->
  has (mineKeys board) (keyOf n) = true -> mineAt mine n = true.
Proof.
  intros P C Hk. apply has_In, In_mineKeys in Hk.
  destruct Hk as (r & c & t & n' & Hx & Hn & K).
  apply keyOf_inj in K. subst n'. now apply (rule1_sound board mine r c t).
Qed.

Lemma rule2_sound board mine r c t n :
  complete board = true -> consistent board mine ->
  In (r, c, t) (tilesOf board) ->
  In n (rule2 board (mineKeys board) (r, c, t)) ->
  mineAt mine n = false.
Proof.
  intros P C Hx Hn. apply In_rule2 in Hn.
  destruct Hn as (value & Hs & Hn & Hh & Hu & Hv).
  destruct (consistent_clue _ _ _ _ _ _ C Hx Hs) as [_ Hm].
  destruct (mineAt mine n) eqn:M; [|reflexivity].
  assert (I : has (mineKeys board) (keyOf n) = true).
  { apply (filter_length_eq (fun x => has (mineKeys board) (keyOf x))
             (mineAt mine) (neighborsOf board (Z.of_nat r) (Z.of_nat c)));
      trivial.
    - intros x _. now apply mineKeys_sound.
    - apply Nat2Z.inj. congruence. }
  congruence.
Qed.

Lemma findMoves_complete board res :
  findMoves board = Ok res -> complete board = true.
Proof.
  intros E. destruct (complete board) eqn:C; [reflexivity|].
  rewrite (incomplete_findMoves board C) in E. discriminate.
Qed.

(** X1: the conclusions are right.  If every clue on the board is true of a
    mine layout (a numbered tile is no mine and shows the number of mines
    among its neighbours), then every position [findMoves] returns in
    [mineCells] is a mine of that layout and every position it returns in
    [safeCells] is not. *)
Theorem findMoves_sound (board : Board) (mine : Layout) (res : Moves) :
  consistent board mine ->
  findMoves board = Ok res ->
  (forall r c, In (cell r c) (mineCells res) -> mine r c = true)
  /\ (forall r c, In (cell r c) (safeCells res) -> mine r c = false).
Proof.
  intros C E. pose proof (findMoves_complete board res E) as P.
  apply findMoves_Ok in E. subst res. simpl. split; intros r c Hin.
  - apply In_decoded in Hin; [|apply cellKeys_addCells].
    apply (mineKeys_sound board mine (mkCell r c) P C). now apply has_In.
  - apply In_decoded in Hin; [|apply cellKeys_addCells].
    apply In_safeKeys in Hin. destruct Hin as (r0 & c0 & t & n & Hx & Hn & K).
    change (cellKey r c) with (keyOf (mkCell r c)) in K.
    apply keyOf_inj in K. subst n.
    apply (rule2_sound board mine r0 c0 t (mkCell r c) P C Hx Hn).
Qed.

Lemma findMoves_sound_witness :
  consistent board3 mine3
  /\ findMoves board3 = Ok (mkMoves [cell 0 3] [cell 0 1])
  /\ mine3 0 1 = true /\ mine3 0 3 = false.
Proof.
  split; [reflexivity|]. split; [vm_compute; reflexivity|].
  destruct (findMoves_sound board3 mine3 (mkMoves [cell 0 3] [cell 0 1]))
    as [M S]; [reflexivity|vm_compute; reflexivity|].
  split; [apply M|apply S]; simpl; auto.
Defined.

(** X2: under clues that are true of a mine layout, every hidden neighbour
    of a tile showing 0 is returned in [safeCells]. *)
Theorem zero_clue_neighbors_safe (board : Board) (mine : Layout) (res : Moves)
    (r c : Z) (t : Tile) (ns : list Cell) (n : Cell) :
  consistent board mine ->
  findMoves board = Ok res ->
  tileAt board r c = Ok t -> state t = number 0 ->
  getNeighbors board r c = Ok ns -> In n ns ->
  hiddenAt board n = true ->
  In (cell (row n) (col n)) (safeCells res).
Proof.
  intros C E Ht Hs Hns Hn Hh.
  pose proof (findMoves_complete board res E) as P.
  apply findMoves_Ok in E. subst res. simpl.
  rewrite getNeighbors_spec in Hns. inversion Hns. subst ns.
  apply tile_visited in Ht. destruct Ht as (Hx & Er & Ec).
  destruct (consistent_clue _ _ _ _ _ _ C Hx Hs) as [_ Hm].
  rewrite Er, Ec in Hm.
  assert (Z0 : length (filter (mineAt mine) (neighborsOf board r c)) = 0%nat)
    by lia.
  assert (NM : forall x, In x (neighborsOf board r c) -> mineAt mine x = false).
  { intros x Hx'. destruct (mineAt mine x) eqn:M; [|reflexivity].
    assert (In x (filter (mineAt mine) (neighborsOf board r c)))
      by (apply filter_In; auto).
    destruct (filter (mineAt mine) (neighborsOf board r c));
      [contradiction|discriminate]. }
  assert (NI : forall x, In x (neighborsOf board r c) ->
                         has (mineKeys board) (keyOf x) = false).
  { intros x Hx'. destruct (has (mineKeys board) (keyOf x)) eqn:I;
      [|reflexivity].
    apply (mineKeys_sound board mine x P C) in I.
    rewrite (NM x Hx') in I. discriminate. }
  apply In_decoded; [apply cellKeys_addCells|].
  apply In_safeKeys. exists (Z.to_nat r), (Z.to_nat c), t, n.
  split; [exact Hx|]. split; [|reflexivity].
  apply In_rule2. rewrite Er, Ec. exists 0.
  repeat split; auto.
  assert (L : (length (filter (fun x => has (mineKeys board) (keyOf x))
                         (neighborsOf board r c))
               <= length (filter (mineAt mine) (neighborsOf board r c)))%nat).
  { apply filter_length_mono. intros x Hx' I. rewrite (NI x Hx') in I.
    discriminate. }
  lia.
Qed.

Lemma zero_clue_neighbors_safe_witness :
  consistent board0 noMines
  /\ findMoves board0 = Ok (mkMoves [cell 0 1] [])
  /\ In (cell 0 1) [cell 0 1].
Proof.
  split; [reflexivity|]. split; [vm_compute; reflexivity|].
  apply (zero_clue_neighbors_safe board0 noMines (mkMoves [cell 0 1] [])
           0 0 (N 0 0 0) [mkCell 0 1] (mkCell 0 1));
    try reflexivity; simpl; auto.
Defined.

(** X3: [findMoves] throws exactly when some numbered tile has a neighbour
    position (inside the bounds [getNeighbors] tests, which take the width
    from row 0) at which the board has no tile. *)
Theorem findMoves_throws_iff (board : Board) :
  findMoves board = TypeError <->
  exists r c t value ns n,
    tileAt board r c = Ok t /\ state t = number value
    /\ getNeighbors board r c = Ok ns /\ In n ns
    /\ tileAt board (row n) (col n) = TypeError.
Proof.
  split.
  - intros E. destruct (complete board) eqn:C.
    { rewrite (complete_findMoves board C) in E. discriminate. }
    unfold complete in C. apply forallb_false_exists in C.
    destruct C as ([[r c] t] & Hx & P). unfold neighborsPresent in P.
    destruct (state t) as [|value] eqn:Hs; [discriminate|].
    apply forallb_false_exists in P. destruct P as (n & Hn & Pn).
    apply hasTile_false in Pn.
    exists (Z.of_nat r), (Z.of_nat c), t, value,
      (neighborsOf board (Z.of_nat r) (Z.of_nat c)), n.
    rewrite tileAt_of_nat, getNeighbors_spec. auto.
  - intros (r & c & t & value & ns & n & Ht & Hs & Hns & Hn & Pn).
    apply incomplete_findMoves.
    destruct (complete board) eqn:C; [|reflexivity].
    rewrite getNeighbors_spec in Hns. inversion Hns. subst ns.
    apply tile_visited in Ht. destruct Ht as (Hx & Er & Ec).
    rewrite <- Er, <- Ec in Hn.
    pose proof (present_neighbors board _ _ t value C Hx Hs n Hn) as T.
    apply hasTile_false in Pn. congruence.
Qed.

(** X4: a board without numbered tiles gives no conclusion: [findMoves]
    returns two empty arrays, and does so on ragged boards too, since it
    reads no neighbour. *)
Theorem findMoves_no_clue (board : Board) :
  forallb (forallb isHidden) board = true ->
  findMoves board = Ok (mkMoves [] []).
Proof.
  intros A. rewrite forallb_forall in A.
  assert (A' : forall r c t, In (r, c, t) (tilesOf board) -> state t = hidden).
  { intros r c t Hx. apply In_tilesOf in Hx. destruct Hx as (tiles & Hr & Hc).
    apply nth_error_In in Hr, Hc. specialize (A tiles Hr).
    rewrite forallb_forall in A. specialize (A t Hc).
    unfold isHidden in A. now destruct (state t). }
  unfold findMoves, pass1, pass2. rewrite forEachTile_foldM.
  rewrite foldM_unchanged.
  - simpl. rewrite forEachTile_foldM. rewrite foldM_unchanged; [reflexivity|].
    intros [[r c] t] s Hx. unfold onITile, pass2_body. simpl.
    now rewrite (A' r c t Hx).
  - intros [[r c] t] s Hx. unfold onITile, pass1_body. simpl.
    now rewrite (A' r c t Hx).
Qed.

Lemma findMoves_no_clue_witness :
  forallb (forallb isHidden) [ [H 0 0; H 0 1]; [H 1 0] ] = true
  /\ findMoves [ [H 0 0; H 0 1]; [H 1 0] ] = Ok (mkMoves [] []).
Proof.
  split; [reflexivity|]. apply findMoves_no_clue. reflexivity.
Defined.

(** X5: [findMoves] reads the board only through its grid of tile states:
    two boards with the same states at the same indices give the same
    outcome, whatever [row] and [col] fields their tiles carry. *)
Theorem findMoves_reads_states_only (b1 b2 : Board) :
  map (map state) b1 = map (map state) b2 ->
  findMoves b1 = findMoves b2.
Proof. intros S. now apply findMoves_snapshot. Qed.

Lemma findMoves_reads_states_only_witness :
  map (map state) board3 = map (map state) board3_unlabelled
  /\ findMoves board3_unlabelled = Ok (mkMoves [cell 0 3] [cell 0 1]).
Proof.
  split; [reflexivity|].
  rewrite <- (findMoves_reads_states_only board3 board3_unlabelled eq_refl).
  vm_compute. reflexivity.
Defined.

(** ** More on [getNeighbors] *)

Lemma offsets_iff r c n :
  In n (offsets r c) <->
  (r - 1 <= row n <= r + 1) /\ (c - 1 <= col n <= c + 1) /\ n <> mkCell r c.
Proof.
  split; [apply In_offsets|].
  destruct n as [nr nc]. simpl. intros (Hr & Hc & Hne).
  assert (Dr : nr = r + -1 \/ nr = r + 0 \/ nr = r + 1) by lia.
  assert (Dc : nc = c + -1 \/ nc = c + 0 \/ nc = c + 1) by lia.
  unfold offsets, directions. simpl.
  destruct Dr as [-> | [-> | ->]], Dc as [-> | [-> | ->]]; auto 10.
  exfalso. apply Hne. f_equal; lia.
Qed.

Lemma NoDup_offsets r c : NoDup (offsets r c).
Proof.
  unfold offsets, directions. simpl.
  repeat (constructor;
          [simpl; intros F;
           repeat (destruct F as [F|F]; [inversion F; lia|]); exact F|]).
  constructor.
Qed.

(** X6: [getNeighbors] returns no position twice. *)
Theorem getNeighbors_NoDup (board : Board) (r c : Z) (ns : list Cell) :
  getNeighbors board r c = Ok ns -> NoDup ns.
Proof.
  rewrite getNeighbors_spec. intros [= <-].
  apply NoDup_filter, NoDup_offsets.
Qed.

Lemma getNeighbors_NoDup_witness :
  getNeighbors board2 0 0 = Ok [mkCell 0 1; mkCell 1 0; mkCell 1 1]
  /\ NoDup [mkCell 0 1; mkCell 1 0; mkCell 1 1].
Proof.
  split; [reflexivity|]. apply (getNeighbors_NoDup board2 0 0). reflexivity.
Defined.

(** X7: adjacency is symmetric: if [getNeighbors] at a position inside the
    board returns [n], then [getNeighbors] at [n] returns that position. *)
Theorem getNeighbors_symmetric (board : Board) (r c : Z) (ns : list Cell)
    (n : Cell) :
  0 <= r < Z.of_nat (length board) -> 0 <= c < width board ->
  getNeighbors board r c = Ok ns -> In n ns ->
  exists ns', getNeighbors board (row n) (col n) = Ok ns'
              /\ In (mkCell r c) ns'.
Proof.
  intros Hr Hc Hns Hn. rewrite getNeighbors_spec in Hns. inversion Hns.
  subst ns. apply In_neighborsOf in Hn. destruct Hn as [Ho _].
  apply offsets_iff in Ho. destruct Ho as (Or & Oc & One).
  exists (neighborsOf board (row n) (col n)).
  split; [apply getNeighbors_spec|].
  apply In_neighborsOf. split.
  - apply offsets_iff. simpl. repeat split; try lia.
    intros E. apply One. destruct n; simpl in *. inversion E. reflexivity.
  - apply inside_bounds. simpl. unfold rowCount. lia.
Qed.

Lemma getNeighbors_symmetric_witness :
  exists ns', getNeighbors board2 1 1 = Ok ns' /\ In (mkCell 0 0) ns'.
Proof.
  apply (getNeighbors_symmetric board2 0 0
           [mkCell 0 1; mkCell 1 0; mkCell 1 1] (mkCell 1 1));
    [simpl; lia|simpl; lia|reflexivity|simpl; auto].
Defined.

(** X8: a position with a full ring inside the board (not on the first or
    last row, nor on the first or last column of row 0) has exactly eight
    neighbours, and [getNeighbors] returns eight positions only there. *)
Theorem getNeighbors_eight (board : Board) (r c : Z) (ns : list Cell) :
  getNeighbors board r c = Ok ns ->
  (length ns = 8%nat <->
   1 <= r < Z.of_nat (length board) - 1 /\ 1 <= c < width board - 1).
Proof.
  rewrite getNeighbors_spec. intros [= <-]. unfold neighborsOf. split.
  - intros L.
    assert (F : forallb (inside board) (offsets r c) = true).
    { apply filter_length_forallb. rewrite L. reflexivity. }
    rewrite forallb_forall in F.
    assert (A : inside board (mkCell (r + -1) (c + -1)) = true).
    { apply F. unfold offsets, directions. simpl. auto. }
    assert (B : inside board (mkCell (r + 1) (c + 1)) = true).
    { apply F. unfold offsets, directions. simpl. auto 10. }
    apply inside_bounds in A, B. simpl in A, B. unfold rowCount in *. lia.
  - intros [Hr Hc]. rewrite forallb_filter_id; [reflexivity|].
    apply forallb_forall. intros n Hn. apply In_offsets in Hn.
    apply inside_bounds. unfold rowCount. lia.
Qed.

Lemma getNeighbors_eight_witness :
  getNeighbors [ [H 0 0; H 0 1; H 0 2]; [H 1 0; N 1 1 0; H 1 2];
                 [H 2 0; H 2 1; H 2 2] ] 1 1
  = Ok [ mkCell 0 0; mkCell 0 1; mkCell 0 2; mkCell 1 0; mkCell 1 2;
         mkCell 2 0; mkCell 2 1; mkCell 2 2 ]
  /\ 1 <= 1 < 3 - 1.
Proof.
  split; [reflexivity|].
  apply (getNeighbors_eight
           [ [H 0 0; H 0 1; H 0 2]; [H 1 0; N 1 1 0; H 1 2];
             [H 2 0; H 2 1; H 2 2] ] 1 1 _ eq_refl).
  reflexivity.
Defined.

(** * Properties of [foreground.js] *)

(** ** Maps *)

Lemma jsval_eqb_eq a b : jsval_eqb a b = true <-> a = b.
Proof.
  destruct a as [x| |], b as [y| |]; simpl; split; try congruence;
    try reflexivity.
  - intros E. apply Z.eqb_eq in E. now subst.
  - intros [= ->]. apply Z.eqb_refl.
Qed.

Lemma jsval_eqb_refl a : jsval_eqb a a = true.
Proof. now apply jsval_eqb_eq. Qed.

Lemma mapGet_mapSet {V : Type} (m : JSMap V) k v k' :
  mapGet (mapSet m k v) k' = if jsval_eqb k' k then Some v else mapGet m k'.
Proof.
  induction m as [|[k0 v0] m IH]; simpl.
  - reflexivity.
  - destruct (jsval_eqb k k0) eqn:E; simpl.
    + apply jsval_eqb_eq in E. subst k0.
      now destruct (jsval_eqb k' k).
    + destruct (jsval_eqb k' k0) eqn:F.
      * destruct (jsval_eqb k' k) eqn:G; [|reflexivity].
        apply jsval_eqb_eq in F, G. subst.
        rewrite jsval_eqb_refl in E. discriminate.
      * apply IH.
Qed.

Lemma mapGet_In {V : Type} (m : JSMap V) k v :
  mapGet m k = Some v -> In (k, v) m.
Proof.
  induction m as [|[k0 v0] m IH]; simpl; [discriminate|].
  destruct (jsval_eqb k k0) eqn:E.
  - apply jsval_eqb_eq in E. subst. intros [= ->]. now left.
  - intros H. right. now apply IH.
Qed.

Lemma lookup2_storeSquare boardMap square r c :
  lookup2 (storeSquare boardMap square) r c
  = if atPosition r c square then Some (pageTileOf square)
    else lookup2 boardMap r c.
Proof.
  unfold storeSquare, atPosition, pageTileOf.
  destruct (parseId (id square)) as [row col]. simpl fst. simpl snd.
  unfold mapHas, lookup2.
  destruct (mapGet boardMap row) as [colMap|] eqn:G.
  - rewrite G, !mapGet_mapSet.
    destruct (jsval_eqb r row) eqn:E; simpl; [|reflexivity].
    apply jsval_eqb_eq in E. subst r. rewrite G, mapGet_mapSet.
    now destruct (jsval_eqb c col).
  - rewrite mapGet_mapSet, jsval_eqb_refl, !mapGet_mapSet.
    destruct (jsval_eqb r row) eqn:E; simpl; [|reflexivity].
    apply jsval_eqb_eq in E. subst r. rewrite G. simpl.
    now destruct (jsval_eqb c col).
Qed.

Lemma find_app {A : Type} (p : A -> bool) l1 l2 :
  find p (l1 ++ l2)
  = match find p l1 with
    | Some x => Some x
    | None => find p l2
    end.
Proof.
  induction l1 as [|x l1 IH]; simpl; [reflexivity|].
  now destruct (p x).
Qed.

Lemma lookup2_fold squares : forall boardMap r c,
  lookup2 (fold_left storeSquare squares boardMap) r c
  = match find (atPosition r c) (List.rev squares) with
    | Some square => Some (pageTileOf square)
    | None => lookup2 boardMap r c
    end.
Proof.
  induction squares as [|sq squares IH]; intros m r c; simpl; [reflexivity|].
  rewrite IH, find_app, lookup2_storeSquare. simpl.
  destruct (find (atPosition r c) (List.rev squares)); [reflexivity|].
  now destruct (atPosition r c sq).
Qed.

(** ** The size of the board *)

Lemma greater_ge x max : max <= greater x max.
Proof.
  unfold greater. destruct x as [z| |]; try lia.
  destruct (z >? max) eqn:E; [|lia]. apply Z.gtb_lt in E. lia.
Qed.

Lemma greater_key z max : z <= greater (JNum z) max.
Proof.
  unfold greater. destruct (z >? max) eqn:E; [lia|].
  rewrite Z.gtb_ltb in E. apply Z.ltb_ge in E. exact E.
Qed.

Lemma fold_greater_ge {V : Type} (cm : JSMap V) : forall max,
  max <= fold_left (fun maxCol e => greater (fst e) maxCol) cm max.
Proof.
  induction cm as [|e cm IH]; intros max; simpl; [lia|].
  etransitivity; [apply (greater_ge (fst e))|apply IH].
Qed.

Lemma fold_greater_key {V : Type} (cm : JSMap V) c v : forall max,
  In (JNum c, v) cm ->
  c <= fold_left (fun maxCol e => greater (fst e) maxCol) cm max.
Proof.
  induction cm as [|e cm IH]; intros max Hin; [destruct Hin|]. simpl.
  destruct Hin as [->|Hin].
  - simpl. etransitivity; [apply (greater_key c max)|apply fold_greater_ge].
  - now apply IH.
Qed.

Lemma step_maxima_ge acc e :
  fst acc <= fst (step_maxima acc e) /\ snd acc <= snd (step_maxima acc e).
Proof.
  unfold step_maxima. simpl. split; [apply greater_ge|apply fold_greater_ge].
Qed.

Lemma maxima_ge boardMap : forall acc,
  fst acc <= fst (fold_left step_maxima boardMap acc)
  /\ snd acc <= snd (fold_left step_maxima boardMap acc).
Proof.
  induction boardMap as [|e m IH]; intros acc; cbn [fold_left]; [lia|].
  destruct (IH (step_maxima acc e)) as [A B].
  destruct (step_maxima_ge acc e) as [A' B']. lia.
Qed.

Lemma maxima_key boardMap r colMap c t : forall acc,
  In (JNum r, colMap) boardMap -> In (JNum c, t) colMap ->
  r <= fst (fold_left step_maxima boardMap acc)
  /\ c <= snd (fold_left step_maxima boardMap acc).
Proof.
  induction boardMap as [|e m IH]; intros acc Hr Hc; [destruct Hr|].
  cbn [fold_left]. destruct Hr as [->|Hr].
  - destruct (maxima_ge m (step_maxima acc (JNum r, colMap))) as [A B].
    assert (A' : r <= fst (step_maxima acc (JNum r, colMap))).
    { unfold step_maxima. simpl. apply greater_key. }
    assert (B' : c <= snd (step_maxima acc (JNum r, colMap))).
    { unfold step_maxima. simpl. now apply (fold_greater_key colMap c t). }
    lia.
  - now apply IH.
Qed.

Lemma maxima_fold boardMap : maxima boardMap = fold_left step_maxima boardMap (-1, -1).
Proof. reflexivity. Qed.

Lemma maxima_lookup boardMap r c t :
  lookup2 boardMap (JNum r) (JNum c) = Some t ->
  r <= fst (maxima boardMap) /\ c <= snd (maxima boardMap).
Proof.
  unfold lookup2.
  destruct (mapGet boardMap (JNum r)) as [colMap|] eqn:G; [|discriminate].
  intros Hc. apply mapGet_In in G, Hc. rewrite maxima_fold.
  now apply (maxima_key boardMap r colMap c t).
Qed.

Lemma nth_error_upto max k :
  (k < Z.to_nat (max + 1))%nat -> nth_error (upto max) k = Some (Z.of_nat k).
Proof.
  intros L. unfold upto. rewrite nth_error_map, nth_error_seq.
  destruct (Nat.ltb_spec k (Z.to_nat (max + 1))); [reflexivity|lia].
Qed.

Lemma length_upto max : length (upto max) = Z.to_nat (max + 1).
Proof. unfold upto. now rewrite length_map, length_seq. Qed.

(** ** What [readBoard] returns *)

Lemma readBoard_eq document :
  readBoard document
  = map (fun r => map (fun c => tileOrFiller (boardMapOf document) r c)
                      (upto (snd (maxima (boardMapOf document)))))
        (upto (fst (maxima (boardMapOf document)))).
Proof.
  unfold readBoard. fold (boardMapOf document).
  now destruct (maxima (boardMapOf document)).
Qed.

Lemma lookup2_boardMapOf document r c :
  lookup2 (boardMapOf document) r c
  = option_map pageTileOf (lastAt document r c).
Proof.
  unfold boardMapOf, lastAt. rewrite lookup2_fold.
  now destruct (find _ _).
Qed.

Lemma tileOrFiller_lookup2 boardMap r c :
  tileOrFiller boardMap r c
  = match lookup2 boardMap (JNum r) (JNum c) with
    | Some tile => tile
    | None => filler r c
    end.
Proof.
  unfold tileOrFiller, lookup2. now destruct (mapGet boardMap (JNum r)).
Qed.

Lemma lastAt_position document r c square :
  lastAt document r c = Some square ->
  In square (querySelectorAll_square document)
  /\ parseId (id square) = (r, c).
Proof.
  unfold lastAt. intros F. apply find_some in F. destruct F as [Hin P].
  apply in_rev in Hin. split; [exact Hin|].
  unfold atPosition in P. apply andb_true_iff in P. destruct P as [P1 P2].
  apply jsval_eqb_eq in P1, P2.
  destruct (parseId (id square)); simpl in *. now subst.
Qed.

Lemma lastAt_None document r c square :
  lastAt document r c = None ->
  In square (querySelectorAll_square document) ->
  parseId (id square) <> (r, c).
Proof.
  unfold lastAt. intros F Hin E.
  apply in_rev in Hin. apply (find_none _ _ F square) in Hin.
  unfold atPosition in Hin. rewrite E in Hin. simpl in Hin.
  now rewrite !jsval_eqb_refl in Hin.
Qed.

Lemma tileOrFiller_boardMapOf document r c :
  tileOrFiller (boardMapOf document) r c
  = mkPageTile (JNum r) (JNum c)
      match lastAt document (JNum r) (JNum c) with
      | Some square => squareState square
      | None => page_hidden
      end.
Proof.
  rewrite tileOrFiller_lookup2, lookup2_boardMapOf.
  destruct (lastAt document (JNum r) (JNum c)) as [sq|] eqn:L; simpl;
    [|reflexivity].
  apply lastAt_position in L. destruct L as [_ E].
  unfold pageTileOf. now rewrite E.
Qed.

Lemma readBoard_nth document r c tiles t :
  nth_error (readBoard document) r = Some tiles ->
  nth_error tiles c = Some t ->
  (r < Z.to_nat (fst (maxima (boardMapOf document)) + 1))%nat
  /\ (c < Z.to_nat (snd (maxima (boardMapOf document)) + 1))%nat
  /\ t = tileOrFiller (boardMapOf document) (Z.of_nat r) (Z.of_nat c).
Proof.
  rewrite readBoard_eq. intros Hr Hc.
  assert (Lr : (r < Z.to_nat (fst (maxima (boardMapOf document)) + 1))%nat).
  { rewrite <- length_upto, <- (length_map
      (fun r => map (fun c => tileOrFiller (boardMapOf document) r c)
                    (upto (snd (maxima (boardMapOf document)))))).
    apply nth_error_Some. congruence. }
  rewrite nth_error_map, (nth_error_upto _ _ Lr) in Hr. simpl in Hr.
  inversion Hr. subst tiles. clear Hr.
  assert (Lc : (c < Z.to_nat (snd (maxima (boardMapOf document)) + 1))%nat).
  { rewrite <- length_upto, <- (length_map
      (fun c => tileOrFiller (boardMapOf document) (Z.of_nat r) c)).
    apply nth_error_Some. congruence. }
  rewrite nth_error_map, (nth_error_upto _ _ Lc) in Hc. simpl in Hc.
  inversion Hc. auto.
Qed.

Lemma readBoard_row_length document tiles :
  In tiles (readBoard document) ->
  length tiles = Z.to_nat (snd (maxima (boardMapOf document)) + 1).
Proof.
  rewrite readBoard_eq, in_map_iff. intros (r & <- & _).
  now rewrite length_map, length_upto.
Qed.

(** X9: the tile [readBoard] puts at [board[r][c]] carries the indices [r]
    and [c], and its state is the one read from the last square of the page
    whose id parses to [(r, c)]; where no square has that position the tile
    is hidden. *)
Theorem readBoard_tile (document : Document) (r c : nat)
    (tiles : list PageTile) (t : PageTile) :
  nth_error (readBoard document) r = Some tiles ->
  nth_error tiles c = Some t ->
  t = mkPageTile (JNum (Z.of_nat r)) (JNum (Z.of_nat c))
        match lastAt document (JNum (Z.of_nat r)) (JNum (Z.of_nat c)) with
        | Some square => squareState square
        | None => page_hidden
        end.
Proof.
  intros Hr Hc. destruct (readBoard_nth _ _ _ _ _ Hr Hc) as (_ & _ & ->).
  apply tileOrFiller_boardMapOf.
Qed.

Lemma readBoard_tile_witness :
  nth_error (readBoard page_odd) 1 = Some (map (fun c => filler 1 c) (upto 5))
  /\ filler 1 2 = mkPageTile (JNum 1) (JNum 2) page_hidden.
Proof.
  split; [vm_compute; reflexivity|].
  apply (readBoard_tile page_odd 1 2 (map (fun c => filler 1 c) (upto 5)));
    vm_compute; reflexivity.
Defined.

(** X10: the board [readBoard] returns is rectangular: all its rows have
    the same length. *)
Theorem readBoard_rectangular (document : Document)
    (tiles1 tiles2 : list PageTile) :
  In tiles1 (readBoard document) -> In tiles2 (readBoard document) ->
  length tiles1 = length tiles2.
Proof.
  rewrite readBoard_eq, !in_map_iff.
  intros (r1 & <- & _) (r2 & <- & _). now rewrite !length_map.
Qed.

Lemma readBoard_rectangular_witness :
  length (map (fun c => filler 0 c) (upto 5))
  = length (map (fun c => filler 1 c) (upto 5)).
Proof.
  apply (readBoard_rectangular page_odd); vm_compute; auto.
Defined.

(** X11: every square whose id parses to a position with non-negative row
    and column has a tile in the board [readBoard] returns. *)
Theorem readBoard_covers (document : Document) (square : Element) (r c : Z) :
  In square (querySelectorAll_square document) ->
  parseId (id square) = (JNum r, JNum c) ->
  0 <= r -> 0 <= c ->
  exists tiles t,
    nth_error (readBoard document) (Z.to_nat r) = Some tiles
    /\ nth_error tiles (Z.to_nat c) = Some t.
Proof.
  intros Hin E Hr Hc.
  destruct (lastAt document (JNum r) (JNum c)) as [sq|] eqn:L.
  2:{ exfalso. now apply (lastAt_None _ _ _ square L Hin). }
  assert (K : lookup2 (boardMapOf document) (JNum r) (JNum c)
              = Some (pageTileOf sq)).
  { rewrite lookup2_boardMapOf, L. reflexivity. }
  apply maxima_lookup in K. destruct K as [Mr Mc].
  rewrite readBoard_eq. rewrite nth_error_map, nth_error_upto by lia.
  simpl. eexists _, _. split; [reflexivity|].
  rewrite nth_error_map, nth_error_upto by lia. reflexivity.
Qed.

Lemma readBoard_covers_witness :
  exists tiles t,
    nth_error (readBoard page3) (Z.to_nat 0) = Some tiles
    /\ nth_error tiles (Z.to_nat 3) = Some t.
Proof.
  apply (readBoard_covers page3 (mkElement "0_3" ["square"; "blank"]%string));
    [simpl; auto|vm_compute; reflexivity|lia|lia].
Defined.

(** ** The board is no larger than the squares require *)

Lemma mapSet_In {V : Type} (m : JSMap V) k v k' v' :
  In (k', v') (mapSet m k v) -> (k' = k /\ v' = v) \/ In (k', v') m.
Proof.
  induction m as [|[k0 v0] m IH]; simpl.
  - intros [[= <- <-]|[]]. now left.
  - destruct (jsval_eqb k k0) eqn:E.
    + apply jsval_eqb_eq in E. subst k0.
      intros [[= <- <-]|Hin]; [now left|right; now right].
    + intros [Hin|Hin]; [right; now left|].
      destruct (IH Hin) as [L|R]; [now left|right; now right].
Qed.

Lemma keysFrom_storeSquare squares boardMap square :
  In square squares -> keysFrom squares boardMap ->
  keysFrom squares (storeSquare boardMap square).
Proof.
  intros Hsq K. unfold storeSquare.
  destruct (parseId (id square)) as [row col] eqn:E.
  assert (Er : fst (parseId (id square)) = row) by now rewrite E.
  assert (Ec : snd (parseId (id square)) = col) by now rewrite E.
  unfold mapHas. destruct (mapGet boardMap row) as [colMap|] eqn:G.
  - rewrite G. intros k cm Hin. apply mapSet_In in Hin.
    destruct Hin as [[-> ->]|Hin]; [|now apply K].
    split; [eauto|]. intros k2 t Hin2. apply mapSet_In in Hin2.
    destruct Hin2 as [[-> _]|Hin2]; [eauto|].
    apply mapGet_In in G. destruct (K row colMap G) as [_ K2]. eauto.
  - rewrite mapGet_mapSet, jsval_eqb_refl.
    intros k cm Hin. apply mapSet_In in Hin.
    destruct Hin as [[-> ->]|Hin].
    + split; [eauto|]. intros k2 t [[= <- _]|[]]. eauto.
    + apply mapSet_In in Hin. destruct Hin as [[-> ->]|Hin]; [|now apply K].
      split; [eauto|]. intros k2 t [].
Qed.

Lemma keysFrom_fold squares l : forall boardMap,
  (forall square, In square l -> In square squares) ->
  keysFrom squares boardMap ->
  keysFrom squares (fold_left storeSquare l boardMap).
Proof.
  induction l as [|sq l IH]; intros m Sub K; simpl; [exact K|].
  apply IH.
  - intros x Hx. apply Sub. now right.
  - apply keysFrom_storeSquare; [apply Sub; now left|exact K].
Qed.

Lemma keysFrom_boardMapOf document :
  keysFrom (querySelectorAll_square document) (boardMapOf document).
Proof.
  unfold boardMapOf. apply keysFrom_fold; [auto|]. intros k cm [].
Qed.

Lemma greater_cases x max :
  greater x max = max \/ x = JNum (greater x max).
Proof.
  unfold greater. destruct x as [z| |]; auto. destruct (z >? max); auto.
Qed.

Lemma fold_greater_cases {V : Type} (cm : JSMap V) : forall max,
  fold_left (fun maxCol e => greater (fst e) maxCol) cm max = max
  \/ exists v,
       In (JNum (fold_left (fun maxCol e => greater (fst e) maxCol) cm max), v)
          cm.
Proof.
  induction cm as [|[k v] cm IH]; intros max; simpl; [now left|].
  destruct (IH (greater k max)) as [E|(v' & Hin)].
  - rewrite E. destruct (greater_cases k max) as [E'|E']; [now left|].
    right. exists v. left. now rewrite <- E'.
  - right. exists v'. now right.
Qed.

Lemma maxima_cases boardMap : forall acc,
  (fst (fold_left step_maxima boardMap acc) = fst acc
   \/ exists colMap,
        In (JNum (fst (fold_left step_maxima boardMap acc)), colMap) boardMap)
  /\ (snd (fold_left step_maxima boardMap acc) = snd acc
      \/ exists k colMap t,
           In (k, colMap) boardMap
           /\ In (JNum (snd (fold_left step_maxima boardMap acc)), t) colMap).
Proof.
  induction boardMap as [|[k cm] m IH]; intros acc; cbn [fold_left].
  - split; now left.
  - destruct (IH (step_maxima acc (k, cm))) as [A B]. split.
    + destruct A as [E|(cm' & Hin)].
      * rewrite E. unfold step_maxima. simpl.
        destruct (greater_cases k (fst acc)) as [E'|E']; [now left|].
        right. exists cm. left. now rewrite <- E'.
      * right. exists cm'. now right.
    + destruct B as [E|(k' & cm' & t & Hin & Hin2)].
      * rewrite E. unfold step_maxima. simpl.
        destruct (fold_greater_cases cm (snd acc)) as [E'|(t & Hin)];
          [now left|].
        right. exists k, cm, t. split; [now left|exact Hin].
      * right. exists k', cm', t. split; [now right|exact Hin2].
Qed.

(** X12: the board [readBoard] returns is no larger than the squares
    require: the index of its last row is the row some square's id parses
    to, and the index of the last tile of a row is the column some square's
    id parses to.  A page none of whose squares has such an id gives the
    empty board. *)
Theorem readBoard_tight (document : Document) :
  (forall n, length (readBoard document) = S n ->
     exists square,
       In square (querySelectorAll_square document)
       /\ fst (parseId (id square)) = JNum (Z.of_nat n))
  /\ (forall tiles n,
        In tiles (readBoard document) -> length tiles = S n ->
        exists square,
          In square (querySelectorAll_square document)
          /\ snd (parseId (id square)) = JNum (Z.of_nat n)).
Proof.
  pose proof (keysFrom_boardMapOf document) as K.
  destruct (maxima_cases (boardMapOf document) (-1, -1)) as [A B].
  rewrite <- maxima_fold in A, B. simpl in A, B.
  rewrite readBoard_eq. split.
  - intros n L. rewrite length_map, length_upto in L.
    destruct A as [E|(cm & Hin)]; [rewrite E in L; discriminate|].
    replace (fst (maxima (boardMapOf document))) with (Z.of_nat n) in Hin
      by lia.
    destruct (K _ _ Hin) as [K1 _]. exact K1.
  - intros tiles n Hin L. apply in_map_iff in Hin. destruct Hin as (r & <- & _).
    rewrite length_map, length_upto in L.
    destruct B as [E|(k & cm & t & Hin & Hin2)]; [rewrite E in L; discriminate|].
    replace (snd (maxima (boardMapOf document))) with (Z.of_nat n) in Hin2
      by lia.
    destruct (K _ _ Hin) as [_ K2]. eauto.
Qed.

Lemma readBoard_tight_witness :
  exists square,
    In square (querySelectorAll_square page3)
    /\ fst (parseId (id square)) = JNum (Z.of_nat 0).
Proof.
  apply (proj1 (readBoard_tight page3) 0%nat). vm_compute. reflexivity.
Defined.

(** ** [parseInt] reads back what a template literal printed *)

Lemma digitPrefix_digits s : allChars isDigit s = true -> digitPrefix s = s.
Proof.
  induction s as [|a s IH]; simpl; [reflexivity|].
  rewrite andb_true_iff. intros [Ha Hs]. now rewrite Ha, (IH Hs).
Qed.

Lemma digit_not_space a : isDigit a = true -> isWhiteSpace a = false.
Proof.
  destruct a as [[|] [|] [|] [|] [|] [|] [|] [|]]; vm_compute; congruence.
Qed.

Lemma parseInt_toString n : parseInt (Some (toString n)) = JNum n.
Proof.
  unfold parseInt, toStr, toString.
  destruct n as [|p|p]; simpl Z.to_int; cbn [NilZero.string_of_int].
  - reflexivity.
  - destruct (digit_head_of_pos p) as (a & s & E & Ha).
    pose proof (digitsValue_pos p) as V.
    pose proof (digits_of_uint_zero (Pos.to_uint p)) as D.
    rewrite E in *. cbn [trimStart]. rewrite (digit_not_space a Ha).
    destruct (digit_not_sign a Ha) as [M P]. rewrite M, P.
    now rewrite (digitPrefix_digits _ D).
  - cbn [trimStart]. replace (isWhiteSpace "-") with false by reflexivity.
    rewrite Ascii.eqb_refl.
    rewrite (digitPrefix_digits _ (digits_of_uint_zero (Pos.to_uint p))).
    now rewrite digitsValue_pos.
Qed.

Lemma parseId_cellKey r c : parseId (cellKey r c) = (JNum r, JNum c).
Proof.
  unfold parseId. rewrite split_cellKey. simpl.
  now rewrite !parseInt_toString.
Qed.

Lemma find_first {A : Type} (p : A -> bool) l x :
  find p l = Some x ->
  exists before after,
    l = before ++ x :: after /\ p x = true
    /\ forall y, In y before -> p y = false.
Proof.
  induction l as [|y l IH]; simpl; [discriminate|].
  destruct (p y) eqn:P.
  - intros [= <-]. exists [], l. repeat split; trivial. intros z [].
  - intros F. destruct (IH F) as (b & a & -> & Px & Hb).
    exists (y :: b), a. repeat split; trivial.
    intros z [<-|Hz]; auto.
Qed.

(** X13: for coordinates that are safe integers, [clickCell(row, col)]
    dispatches [mousedown] and then [mouseup] on the first element of the
    document whose id is exactly [row + '_' + col], and that id is parsed
    by [readBoard] back to [(row, col)]; when no element has that id
    nothing is dispatched. *)
Theorem clickCell_target (document : Document) (r c : Z) :
  safeInteger r -> safeInteger c ->
  (clickCell document r c = []
   /\ forall el, In el document -> id el <> cellKey r c)
  \/ exists before el after,
       document = before ++ el :: after
       /\ id el = cellKey r c
       /\ (forall e, In e before -> id e <> cellKey r c)
       /\ clickCell document r c = [mousedown el; mouseup el]
       /\ parseId (id el) = (JNum r, JNum c).
Proof.
  intros _ _. unfold clickCell, getElementById.
  destruct (find _ document) as [el|] eqn:F.
  - right. apply find_first in F. destruct F as (b & a & -> & E & Hb).
    apply String.eqb_eq in E. exists b, el, a. repeat split; trivial.
    + intros e He Ee. apply Hb in He. apply String.eqb_neq in He.
      contradiction.
    + rewrite E. apply parseId_cellKey.
  - left. split; [reflexivity|]. intros el Hin E.
    apply (find_none _ _ F) in Hin. apply String.eqb_neq in Hin.
    contradiction.
Qed.

Lemma clickCell_target_witness :
  (clickCell page3 0 3 = []
   /\ forall el, In el page3 -> id el <> cellKey 0 3)
  \/ exists before el after,
       page3 = before ++ el :: after
       /\ id el = cellKey 0 3
       /\ (forall e, In e before -> id e <> cellKey 0 3)
       /\ clickCell page3 0 3 = [mousedown el; mouseup el]
       /\ parseId (id el) = (JNum 0, JNum 3).
Proof.
  apply (clickCell_target page3 0 3); unfold safeInteger; lia.
Defined.

(** ** The class of a revealed square *)

Lemma substring_all s : substring 0 (String.length s) s = s.
Proof. induction s as [|a s IH]; simpl; [reflexivity|]. now rewrite IH. Qed.

Lemma removeFirst_open s : removeFirst "open" ("open" ++ s) = s.
Proof.
  unfold removeFirst. 
  replace (prefix "open" ("open" ++ s)) with true.
  - simpl. rewrite Nat.sub_0_r. destruct s; [reflexivity|]. 
    apply substring_all.
  - simpl. now destruct s.
Qed.

(** X14: a square that is not [blank] and whose first class starting with
    [open] is [open] followed by the decimal digits of a safe integer [n]
    is read as a revealed tile showing [n]. *)
Theorem squareState_open (square : Element) (n : Z) :
  safeInteger n ->
  existsb (String.eqb "blank") (classList square) = false ->
  find (prefix "open") (classList square) = Some (openClass n) ->
  squareState square = page_number (JNum n).
Proof.
  intros _ B F. unfold squareState. rewrite B, F. unfold openClass.
  now rewrite removeFirst_open, parseInt_toString.
Qed.

Lemma squareState_open_witness :
  squareState (mkElement "0_0" ["square"; "open1"]%string)
  = page_number (JNum 1).
Proof.
  apply (squareState_open (mkElement "0_0" ["square"; "open1"]%string) 1);
    [unfold safeInteger; lia|reflexivity|reflexivity].
Defined.

(** ** From the page to the solver *)

Lemma allSome_nth {A : Type} (l : list (option A)) : forall l' i x,
  allSome l = Some l' -> nth_error l' i = Some x ->
  nth_error l i = Some (Some x).
Proof.
  induction l as [|[y|] l IH]; intros l' i x; simpl.
  - intros [= <-]. now destruct i.
  - destruct (allSome l) as [ys|]; simpl; [|discriminate].
    intros [= <-]. destruct i as [|i]; simpl.
    + now intros [= <-].
    + now apply IH.
  - discriminate.
Qed.

Lemma allSome_length {A : Type} (l : list (option A)) : forall l',
  allSome l = Some l' -> length l' = length l.
Proof.
  induction l as [|[y|] l IH]; intros l'; simpl.
  - now intros [= <-].
  - destruct (allSome l) as [ys|]; simpl; [|discriminate].
    intros [= <-]. simpl. now rewrite (IH ys).
  - discriminate.
Qed.

Lemma toBoard_row pb board r tiles :
  toBoard pb = Some board -> nth_error board r = Some tiles ->
  exists ptiles,
    nth_error pb r = Some ptiles /\ allSome (map toTile ptiles) = Some tiles.
Proof.
  unfold toBoard. intros T Hr.
  pose proof (allSome_nth _ _ _ _ T Hr) as E.
  rewrite nth_error_map in E.
  destruct (nth_error pb r) as [ptiles|]; [|discriminate].
  simpl in E. inversion E. eauto.
Qed.

Lemma toBoard_tile pb board r c tiles t :
  toBoard pb = Some board ->
  nth_error board r = Some tiles -> nth_error tiles c = Some t ->
  exists ptiles pt,
    nth_error pb r = Some ptiles /\ nth_error ptiles c = Some pt
    /\ toTile pt = Some t.
Proof.
  intros T Hr Hc. destruct (toBoard_row _ _ _ _ T Hr) as (ptiles & Hp & A).
  pose proof (allSome_nth _ _ _ _ A Hc) as E.
  rewrite nth_error_map in E.
  destruct (nth_error ptiles c) as [pt|] eqn:F; [|discriminate].
  simpl in E. inversion E. eauto.
Qed.

Lemma toBoard_rectangular document board :
  toBoard (readBoard document) = Some board -> rectangular board.
Proof.
  intros T. unfold rectangular, rectangularb. apply forallb_forall.
  intros tiles Hin. apply Z.eqb_eq.
  destruct board as [|row0 rest]; [destruct Hin|]. simpl.
  apply In_nth_error in Hin. destruct Hin as [r Hr].
  destruct (toBoard_row _ _ _ _ T Hr) as (pt & Hp & A).
  destruct (toBoard_row _ _ 0%nat row0 T eq_refl) as (pt0 & Hp0 & A0).
  apply allSome_length in A, A0. rewrite length_map in A, A0.
  rewrite A, A0. f_equal.
  apply nth_error_In in Hp, Hp0.
  now rewrite (readBoard_row_length _ _ Hp), (readBoard_row_length _ _ Hp0).
Qed.

(** X15: [findMoves] does not throw on a board that [readBoard] has read
    (the page board taken as a solver board, all its clues being integers). *)
Theorem findMoves_after_readBoard (document : Document) (board : Board) :
  toBoard (readBoard document) = Some board ->
  exists res, findMoves board = Ok res.
Proof.
  intros T. exists (movesOf board).
  apply findMoves_total. now apply (toBoard_rectangular document).
Qed.

Lemma findMoves_after_readBoard_witness :
  toBoard (readBoard page3) = Some board3
  /\ exists res, findMoves board3 = Ok res.
Proof.
  split; [vm_compute; reflexivity|].
  apply (findMoves_after_readBoard page3). vm_compute. reflexivity.
Defined.

Lemma safe_hiddenAt board res r c :
  findMoves board = Ok res -> In (cell r c) (safeCells res) ->
  hiddenAt board (mkCell r c) = true.
Proof.
  intros E Hin. apply findMoves_Ok in E. subst res. simpl in Hin.
  apply In_decoded in Hin; [|apply cellKeys_addCells].
  apply In_safeKeys in Hin. destruct Hin as (r0 & c0 & t & n & _ & Hn & K).
  change (cellKey r c) with (keyOf (mkCell r c)) in K.
  apply keyOf_inj in K. subst n. apply In_rule2 in Hn.
  now destruct Hn as (_ & _ & _ & Hh & _).
Qed.

Lemma toTile_hidden pt t :
  toTile pt = Some t -> state t = hidden -> page_state pt = page_hidden.
Proof.
  unfold toTile. destruct (page_row pt), (page_col pt); try discriminate.
  destruct (page_state pt) as [|[v| |]]; try discriminate.
  - reflexivity.
  - intros [= <-]. discriminate.
Qed.

(** X16: auto-solve clicks only squares it has read as hidden.  Take a
    page all of whose clues were read as integers, so that the board
    [readBoard] returns is a solver board.  If [findMoves] returns [(r, c)]
    as safe for that board, [clickCell(r, c)] finds a square, and no other
    square of the page has an id that parses to [(r, c)], then [clickCell]
    dispatches its two events on a square that was read as hidden, not as
    a number. *)
Theorem safe_click_hits_hidden (document : Document) (board : Board)
    (res : Moves) (r c : Z) (el : Element) :
  toBoard (readBoard document) = Some board ->
  findMoves board = Ok res ->
  In (cell r c) (safeCells res) ->
  getElementById document (cellKey r c) = Some el ->
  In el (querySelectorAll_square document) ->
  (forall square, In square (querySelectorAll_square document) ->
                  parseId (id square) = (JNum r, JNum c) -> square = el) ->
  clickCell document r c = [mousedown el; mouseup el]
  /\ squareState el = page_hidden.
Proof.
  intros T E Hsafe G Hel U. split; [unfold clickCell; now rewrite G|].
  assert (P : parseId (id el) = (JNum r, JNum c)).
  { unfold getElementById in G. apply find_some in G. destruct G as [_ I].
    apply String.eqb_eq in I. rewrite I. apply parseId_cellKey. }
  pose proof (safe_hiddenAt board res r c E Hsafe) as Hh.
  apply hiddenAt_true in Hh. simpl in Hh. destruct Hh as (t & Ht & Hs).
  apply tileAt_Ok in Ht. destruct Ht as (Hr & Hc & Hx).
  apply In_tilesOf in Hx. destruct Hx as (tiles & Hrow & Hcol).
  destruct (toBoard_tile _ _ _ _ _ _ T Hrow Hcol) as (ptiles & pt & Hp & Hq & Tt).
  pose proof (toTile_hidden pt t Tt Hs) as Hps.
  destruct (readBoard_nth _ _ _ _ _ Hp Hq) as (_ & _ & ->).
  rewrite tileOrFiller_boardMapOf in Hps. simpl in Hps.
  rewrite !Z2Nat.id in Hps by lia.
  destruct (lastAt document (JNum r) (JNum c)) as [sq|] eqn:L.
  - apply lastAt_position in L. destruct L as [Hsq Psq].
    rewrite <- (U sq Hsq Psq). exact Hps.
  - exfalso. now apply (lastAt_None _ _ _ el L Hel).
Qed.

Lemma safe_click_hits_hidden_witness :
  clickCell page3 0 3
  = [ mousedown (mkElement "0_3" ["square"; "blank"]%string);
      mouseup (mkElement "0_3" ["square"; "blank"]%string) ]
  /\ squareState (mkElement "0_3" ["square"; "blank"]%string) = page_hidden.
Proof.
  apply (safe_click_hits_hidden page3 board3
           (mkMoves [cell 0 3] [cell 0 1]) 0 3);
    try (vm_compute; reflexivity); try (simpl; now auto 10).
  intros sq Hsq E. simpl in Hsq.
  repeat (destruct Hsq as [Hsq|Hsq]; [subst sq|]); try contradiction;
    try reflexivity; vm_compute in E; discriminate E.
Defined.

(** ** Keys *)

(** X17: [cellKey] gives different keys to different positions, for all
    integer coordinates (negative ones too), and decoding a key gives its
    position back; so a position is in a set of keys exactly when its key
    is. *)
Theorem cellKey_injective (r c r' c' : Z) :
  cellKey r c = cellKey r' c' ->
  r = r' /\ c = c' /\ keyToCell (cellKey r c) = cell r' c'.
Proof.
  intros E. destruct (cellKey_inj r c r' c' E) as [-> ->].
  repeat split. apply keyToCell_cellKey.
Qed.

Lemma cellKey_injective_witness :
  -1 = -1 /\ 12 = 12 /\ keyToCell (cellKey (-1) 12) = cell (-1) 12.
Proof. apply (cellKey_injective (-1) 12 (-1) 12). reflexivity. Defined.

(** ** The debug grid *)

Lemma fold_append_acc {A : Type} (f : A -> string) l : forall acc,
  fold_left (fun s x => (s ++ f x)%string) l acc
  = (acc ++ fold_left (fun s x => (s ++ f x)%string) l EmptyString)%string.
Proof.
  assert (Assoc : forall a b c : string,
             ((a ++ b) ++ c)%string = (a ++ (b ++ c))%string).
  { intros a b c. induction a as [|x a IH]; simpl; [reflexivity|].
    now rewrite IH. }
  induction l as [|x l IH]; intros acc; simpl.
  - induction acc as [|a acc IHa]; simpl; [reflexivity|]. now rewrite <- IHa.
  - rewrite IH. rewrite (IH (f x)). now rewrite Assoc.
Qed.

Lemma rowText_cons tile tiles :
  rowText (tile :: tiles) = (tileText tile ++ rowText tiles)%string.
Proof. unfold rowText. simpl. apply (fold_append_acc tileText). Qed.

Lemma tileText_digit tile :
  singleDigits [tile] = true ->
  tileText tile = String (tileChar tile) EmptyString.
Proof.
  unfold singleDigits, tileText, tileChar. simpl.
  destruct (state tile) as [|v]; [reflexivity|].
  rewrite andb_true_r, andb_true_iff, !Z.leb_le. intros [L U].
  assert (D : v = 0 \/ v = 1 \/ v = 2 \/ v = 3 \/ v = 4 \/ v = 5 \/ v = 6
              \/ v = 7 \/ v = 8 \/ v = 9) by lia.
  repeat (destruct D as [->|D]; [reflexivity|]). now subst.
Qed.

(** X18: when every clue of a row is a single digit, [debugPrintBoard]
    prints the row with exactly one character per tile: a dot for a hidden
    tile and the digit of the clue for a numbered one, at the column of
    the tile. *)
Theorem rowText_aligned (tiles : list Tile) :
  singleDigits tiles = true ->
  String.length (rowText tiles) = length tiles
  /\ forall c t, nth_error tiles c = Some t ->
                 String.get c (rowText tiles) = Some (tileChar t).
Proof.
  induction tiles as [|tile tiles IH]; intros S.
  - split; [reflexivity|]. intros c t. now destruct c.
  - assert (S1 : singleDigits [tile] = true).
    { unfold singleDigits in *. simpl in *. apply andb_true_iff in S.
      destruct S as [-> _]. reflexivity. }
    assert (S2 : singleDigits tiles = true).
    { unfold singleDigits in *. simpl in S. now apply andb_true_iff in S. }
    destruct (IH S2) as [L G].
    rewrite rowText_cons, (tileText_digit tile S1). simpl. split.
    + now rewrite L.
    + intros [|c] t; simpl; [now intros [= <-]|apply G].
Qed.

Lemma rowText_aligned_witness :
  String.length (rowText [N 0 0 1; H 0 1; N 0 2 1; H 0 3]) = 4%nat
  /\ String.get 2 (rowText [N 0 0 1; H 0 1; N 0 2 1; H 0 3]) = Some "1"%char.
Proof.
  destruct (rowText_aligned [N 0 0 1; H 0 1; N 0 2 1; H 0 3] eq_refl)
    as [L G].
  split; [exact L|]. apply (G 2%nat (N 0 2 1)). reflexivity.
Defined.

(** * Calls of [findMoves] do not depend on the heap they find *)

Lemma setOf_safe st0 s m : setOf (during st0 s m) (length st0) = s.
Proof.
  unfold setOf, during. rewrite app_nth2 by lia. now rewrite Nat.sub_diag.
Qed.

Lemma setOf_mine st0 s m : setOf (during st0 s m) (S (length st0)) = m.
Proof.
  unfold setOf, during. rewrite app_nth2 by lia.
  now replace (S (length st0) - length st0)%nat with 1%nat by lia.
Qed.

Lemma update_app st0 l i x :
  update (st0 ++ l) (length st0 + i) x = st0 ++ update l i x.
Proof. induction st0 as [|y st0 IH]; simpl; [reflexivity|]. now rewrite IH. Qed.

Lemma setAdd_safe st0 s m k :
  setAdd (during st0 s m) (length st0) k = during st0 (add s k) m.
Proof.
  unfold setAdd. rewrite setOf_safe. unfold during.
  rewrite <- (Nat.add_0_r (length st0)) at 1. now rewrite update_app.
Qed.

Lemma setAdd_mine st0 s m k :
  setAdd (during st0 s m) (S (length st0)) k = during st0 s (add m k).
Proof.
  unfold setAdd. rewrite setOf_mine. unfold during.
  replace (S (length st0)) with (length st0 + 1)%nat by lia.
  now rewrite update_app.
Qed.

Lemma addCellsIn_safe st0 m cells : forall s,
  addCellsIn (during st0 s m) (length st0) cells
  = during st0 (addCells s cells) m.
Proof.
  unfold addCellsIn, addCells.
  induction cells as [|n cells IH]; intros s; simpl; [reflexivity|].
  now rewrite setAdd_safe, IH.
Qed.

Lemma addCellsIn_mine st0 s cells : forall m,
  addCellsIn (during st0 s m) (S (length st0)) cells
  = during st0 s (addCells m cells).
Proof.
  unfold addCellsIn, addCells.
  induction cells as [|n cells IH]; intros m; simpl; [reflexivity|].
  now rewrite setAdd_mine, IH.
Qed.

(** A loop in the heap that only works on one set does what the loop on
    that set does. *)
Lemma forColsIn_lift (lift : StrSet -> Store) bodyIn body tiles :
  (forall c t x, bodyIn c t (lift x) = (x' <- body c t x ;; Ok (lift x'))) ->
  forall c x,
    forColsIn bodyIn c tiles (lift x)
    = (x' <- forCols body c tiles x ;; Ok (lift x')).
Proof.
  intros B. induction tiles as [|t tiles IH]; intros c x; simpl;
    [reflexivity|].
  rewrite B. destruct (body c t x) as [x1|]; simpl; [apply IH|reflexivity].
Qed.

Lemma forRowsIn_lift (lift : StrSet -> Store) bodyIn body rows :
  (forall r c t x,
     bodyIn r c t (lift x) = (x' <- body r c t x ;; Ok (lift x'))) ->
  forall r x,
    forRowsIn bodyIn r rows (lift x)
    = (x' <- forRows body r rows x ;; Ok (lift x')).
Proof.
  intros B. induction rows as [|tiles rows IH]; intros r x; simpl;
    [reflexivity|].
  rewrite (forColsIn_lift lift (bodyIn r) (body r) tiles (B r)).
  destruct (forCols (body r) 0 tiles x) as [x1|]; simpl;
    [apply IH|reflexivity].
Qed.

Lemma pass1_bodyIn_during board st0 s r c tile m :
  pass1_bodyIn board (S (length st0)) r c tile (during st0 s m)
  = (m' <- pass1_body board r c tile m ;; Ok (during st0 s m')).
Proof.
  unfold pass1_bodyIn, pass1_body.
  destruct (state tile) as [|value]; [reflexivity|].
  destruct (getNeighbors board (Z.of_nat r) (Z.of_nat c)) as [ns|]; simpl;
    [|reflexivity].
  destruct (filterM _ ns) as [hs|]; simpl; [|reflexivity].
  destruct (value =? _); simpl; [|reflexivity].
  now rewrite addCellsIn_mine.
Qed.

Lemma pass2_bodyIn_during board st0 m r c tile s :
  pass2_bodyIn board (S (length st0)) (length st0) r c tile (during st0 s m)
  = (s' <- pass2_body board m r c tile s ;; Ok (during st0 s' m)).
Proof.
  unfold pass2_bodyIn, pass2_body, setHas. rewrite setOf_mine.
  destruct (state tile) as [|value]; [reflexivity|].
  destruct (getNeighbors board (Z.of_nat r) (Z.of_nat c)) as [ns|]; simpl;
    [|reflexivity].
  destruct (_ =? value); simpl; [|reflexivity].
  destruct (filterM _ ns) as [hs|]; simpl; [|reflexivity].
  now rewrite addCellsIn_safe.
Qed.

(** A call in any heap returns what the heap-free embedding returns, and
    leaves the heap with its two sets appended. *)
Lemma findMovesIn_spec board st0 :
  findMovesIn board st0
  = (m <- pass1 board ;;
     s <- pass2 board m ;;
     Ok (mkMoves (map keyToCell s) (map keyToCell m), during st0 s m)).
Proof.
  unfold findMovesIn, newSet, pass1, pass2, forEachTile.
  rewrite length_app. simpl length.
  replace (length st0 + 1)%nat with (S (length st0)) by lia.
  rewrite <- app_assoc.
  change (st0 ++ [[]] ++ [[]]) with (during st0 [] []).
  pose proof (forRowsIn_lift (fun m => during st0 [] m)
                (pass1_bodyIn board (S (length st0))) (pass1_body board) board
                (fun r c t x => pass1_bodyIn_during board st0 [] r c t x)
                0%nat []) as L1.
  cbv beta in L1. rewrite L1. clear L1.
  destruct (forRows (pass1_body board) 0 board []) as [m|]; simpl;
    [|reflexivity].
  pose proof (forRowsIn_lift (fun s => during st0 s m)
                (pass2_bodyIn board (S (length st0)) (length st0))
                (pass2_body board m) board
                (fun r c t x => pass2_bodyIn_during board st0 m r c t x)
                0%nat []) as L2.
  cbv beta in L2. rewrite L2. clear L2.
  destruct (forRows (pass2_body board m) 0 board []) as [s|]; simpl;
    [|reflexivity].
  now rewrite setOf_safe, setOf_mine.
Qed.

Lemma returned_findMovesIn board st0 :
  returned (findMovesIn board st0) = findMoves board.
Proof.
  rewrite findMovesIn_spec. unfold findMoves.
  destruct (pass1 board) as [m|]; simpl; [|reflexivity].
  now destruct (pass2 board m).
Qed.

(** C8: [findMoves] is deterministic.  A call allocates its two sets
    afresh and reads nothing else from the heap: whatever [Set] objects
    earlier calls have left there, a call on the same board returns the
    same safe and mine arrays (or throws in both heaps).  In particular a
    second call, run in the heap the first one left, returns what the first
    returned. *)
Theorem findMoves_deterministic (board : Board) (st1 st2 : Store) :
  returned (findMovesIn board st1) = returned (findMovesIn board st2)
  /\ forall res st1',
       findMovesIn board st1 = Ok (res, st1') ->
       exists st1'', findMovesIn board st1' = Ok (res, st1'').
Proof.
  split; [now rewrite !returned_findMovesIn|].
  intros res st1' E.
  pose proof (returned_findMovesIn board st1) as R1.
  pose proof (returned_findMovesIn board st1') as R2.
  rewrite E in R1. simpl in R1. rewrite <- R1 in R2.
  destruct (findMovesIn board st1') as [[res' st']|]; simpl in R2;
    [|discriminate].
  inversion R2. eauto.
Qed.

Lemma findMoves_deterministic_witness :
  returned (findMovesIn board3 []) = returned (findMovesIn board3 usedStore)
  /\ exists st'',
       findMovesIn board3 [ ["0_3"]; ["0_1"] ]%string
       = Ok (mkMoves [cell 0 3] [cell 0 1], st'').
Proof.
  destruct (findMoves_deterministic board3 [] usedStore) as [A B].
  split; [exact A|].
  apply (B (mkMoves [cell 0 3] [cell 0 1]) [ ["0_3"]; ["0_1"] ]%string).
  vm_compute. reflexivity.
Defined.
